(** * Generic binary search layer of Thrust

    Shallow embedding of [thrust/system/detail/generic/binary_search.inl]:
    the three search functors [lbf], [ubf] and [bsf], the vectorised
    dispatcher [detail::binary_search], the scalar bridge built on top of it,
    and the public entry points [lower_bound], [upper_bound], [binary_search]
    and [equal_range].

    Iterators are addresses into one shared store, so that the sequence, the
    queries, the output and the temporary buffers of the scalar bridge live
    in the same memory and may, a priori, overlap. *)

From stdpp Require Import gmap list fin_maps.

Open Scope Z_scope.

(** ** The store *)

Section Store.

Context {T : Type}.

(** One memory cell.  Elements of the sequence and queries have the value
    type [T]; results are offsets ([difference_type], unbounded here) or
    booleans; a freshly acquired temporary cell is uninitialised. *)
Inductive val : Type :=
  | VElem (x : T)
  | VDiff (d : Z)
  | VBool (b : bool)
  | VUninit.

(** Iterators are random-access: an address in the store. *)
Abbreviation iter := Z (only parsing).

(** The store: the cells in use, by address. *)
Abbreviation heap := (gmap Z val) (only parsing).

(** [OutputType] of the source: what a search functor returns and what an
    output cell is read back as. *)
Class OutputType (R : Type) := {
  to_val : R -> val;
  of_val : val -> option R;
  of_to_val : forall r, of_val (to_val r) = Some r
}.

#[export] Instance difference_type : OutputType Z := {|
  to_val := VDiff;
  of_val v := match v with VDiff d => Some d | _ => None end;
  of_to_val := fun _ => eq_refl
|}.

#[export] Instance bool_type : OutputType bool := {|
  to_val := VBool;
  of_val v := match v with VBool b => Some b | _ => None end;
  of_to_val := fun _ => eq_refl
|}.

(** [thrust::detail::backend::dereference(it)], read as an element. *)
Definition dereference (h : heap) (it : iter) : option T :=
  match h !! it with
  | Some (VElem x) => Some x
  | _ => None
  end.

(** Reading a cell as an [OutputType]. *)
Definition load {R} `{OutputType R} (h : heap) (it : iter) : option R :=
  match h !! it with
  | Some v => of_val v
  | None => None
  end.

(** Assignment through an iterator; the cell has to exist. *)
Definition store (h : heap) (it : iter) (v : val) : option heap :=
  match h !! it with
  | Some _ => Some (<[it := v]> h)
  | None => None
  end.

(** The [n] consecutive addresses starting at [first]. *)
Fixpoint addrs (first : iter) (n : nat) : list iter :=
  match n with
  | O => []
  | S n' => first :: addrs (first + 1) n'
  end.

(** [thrust::distance] on random-access iterators. *)
Definition distance (first last : iter) : Z := last - first.

(** The elements of the range [[first, last)], when it is a range
    ([first <= last]) whose cells all hold elements. *)
Definition read_range (h : heap) (first last : iter) : option (list T) :=
  if bool_decide (first <= last)
  then mapM (dereference h) (addrs first (Z.to_nat (distance first last)))
  else None.

End Store.

Arguments val : clear implicits.
Abbreviation iter := Z (only parsing).
Abbreviation heap T := (gmap Z (val T)) (only parsing).
Arguments OutputType : clear implicits.

(** ** Computations on the store

    Code that writes threads the store and may fail (a read of a cell that
    does not hold what is expected, a write outside the store). *)

Definition M (T A : Type) : Type := heap T -> option (A * heap T).

Definition ret {T A} (a : A) : M T A := fun h => Some (a, h).

Definition bind {T A B} (m : M T A) (k : A -> M T B) : M T B :=
  fun h => match m h with
           | Some (a, h') => k a h'
           | None => None
           end.

(** A read-only computation, run on the current store. *)
Definition reading {T A} (f : heap T -> option A) : M T A :=
  fun h => match f h with
           | Some a => Some (a, h)
           | None => None
           end.

(** [*it = v] *)
Definition assign {T} (it : iter) (v : val T) : M T unit :=
  fun h => match store h it v with
           | Some h' => Some (tt, h')
           | None => None
           end.

Notation "x <-- m ;; k" := (bind m (fun x => k))
  (at level 100, m at next level, right associativity).
Notation "m ;;; k" := (bind m (fun _ => k))
  (at level 100, right associativity).

(** A strict weak ordering functor of the source: [comp(a, b)]. *)
Definition StrictWeakOrdering (T : Type) : Type := T -> T -> bool.

(** The type of a search functor ([lbf], [ubf], [bsf]) with result [R]. *)
Definition BinarySearchFunction (T R : Type) : Type :=
  heap T -> iter -> iter -> T -> StrictWeakOrdering T -> option R.

(** ** External collaborators *)

(** *** namespace scalar

    The single-position search primitives of
    [thrust/system/detail/generic/scalar/binary_search.h], included by the
    file but not part of the sources at hand.  The spec assumes them
    "correct on a sorted range"; the positions below are the ones it
    defines, on any range. *)
Module scalar.
Section Scalar.
Context {T : Type}.

(** Modelled from the spec: the search shared by the two primitives,
    "smallest position [i] such that" a test holds of [Sequence[i]],
    "equals sequence length if none".  The first of the [n] positions from
    [first] on whose element satisfies [stop], and the position past them if
    there is none. *)
Fixpoint first_position (h : heap T) (stop : T -> bool) (first : iter) (n : nat)
  : option iter :=
  match n with
  | O => Some first
  | S n' =>
      match dereference h first with
      | Some x => if stop x then Some first
                  else first_position h stop (first + 1) n'
      | None => None
      end
  end.

(** Modelled from the spec: [scalar::lower_bound(begin, end, value, comp)].
    "LowerBound: smallest position [i] such that [!comp(Sequence[i], query)]
    (first element not ordered-before query); equals sequence length if
    none." *)
Definition lower_bound (h : heap T) (begin end_ : iter) (value : T)
    (comp : StrictWeakOrdering T) : option iter :=
  first_position h (fun x => negb (comp x value)) begin
                 (Z.to_nat (distance begin end_)).

(** Modelled from the spec: [scalar::upper_bound(begin, end, value, comp)].
    "UpperBound: smallest position [i] such that [comp(query, Sequence[i])]
    (first element ordered-after query); equals sequence length if none." *)
Definition upper_bound (h : heap T) (begin end_ : iter) (value : T)
    (comp : StrictWeakOrdering T) : option iter :=
  first_position h (fun x => comp value x) begin
                 (Z.to_nat (distance begin end_)).

End Scalar.
End scalar.

(** *** zip_iterator and for_each

    [thrust/iterator/zip_iterator.h] and [thrust/for_each.h] are not part of
    the sources at hand. *)

(** Modelled from the spec: [thrust::zip_iterator] over the pair of a query
    iterator and an output iterator; "output[i]" goes with "queries[i]". *)
Definition zip_iterator : Type := iter * iter.

(** Modelled from the spec: [thrust::make_zip_iterator(thrust::make_tuple(a, b))]. *)
Definition make_zip_iterator (t : iter * iter) : zip_iterator := t.

(** Modelled from the spec: the element of index [k] of a range of zip
    iterators, the tuple of the two positions advanced by [k]. *)
Definition zip_at (first : zip_iterator) (k : nat) : iter * iter :=
  (fst first + Z.of_nat k, snd first + Z.of_nat k).

(** Modelled from the spec: "[apply(range, fn)]" with the order of the
    visits made explicit, "[fn] is invoked once per element of [range] with
    no required ordering": [f] applied to the elements of the indices
    [order], one after the other. *)
Fixpoint for_each_in {T} (order : list nat) (first : zip_iterator)
    (f : iter * iter -> M T unit) : M T unit :=
  match order with
  | [] => ret tt
  | k :: order' => f (zip_at first k) ;;; for_each_in order' first f
  end.

(** Modelled from the spec: [thrust::for_each(first, last, f)], "[apply(range,
    fn)]", visiting the range from its first element to its last.  The
    length of a range of zip iterators is that of its first component. *)
Definition for_each {T} (first last : zip_iterator)
    (f : iter * iter -> M T unit) : M T unit :=
  for_each_in (seq 0 (Z.to_nat (distance (fst first) (fst last)))) first f.

(** *** temporary_array

    [thrust/detail/temporary_array.h] is not part of the sources at hand. *)

(** Modelled from the spec: where the allocator finds room, an address above
    every cell in use. *)
Definition heap_top {T} (h : heap T) : Z :=
  map_fold (fun a _ top => Z.max (a + 1) top) 0 h.

(** Modelled from the spec: the constructor [temporary_array<_, Space>(n)],
    "[acquire(capacity) -> buffer]": [capacity] uninitialised cells at
    addresses that are not in use; the result is [begin()] of the buffer. *)
Definition temporary_array {T} (capacity : nat) : M T iter :=
  fun h =>
    let base := heap_top h in
    Some (base, foldr (fun a h' => <[a := VUninit]> h') h (addrs base capacity)).

(** Modelled from the spec: the destructor of [temporary_array],
    "[release(buffer)]": the cells of the buffer leave the store. *)
Definition release {T} (buffer : iter) (capacity : nat) : M T unit :=
  fun h => Some (tt, foldr delete h (addrs buffer capacity)).

(** [thrust::less<T>] of [thrust/functional.h], a parameter of the
    development: the natural less-than of the value type. *)
Class Less (T : Type) := less : StrictWeakOrdering T.

(** On integers, for the scenarios. *)
#[export] Instance Z_less : Less Z := Z.ltb.

(** ** namespace detail (binary_search.inl, lines 47-149) *)

Module detail.
Section Detail.
Context {T : Type}.

(** [lbf::operator()]: [scalar::lower_bound(begin, end, value, comp) - begin]. *)
Definition lbf : BinarySearchFunction T Z :=
  fun h begin end_ value comp =>
    match scalar.lower_bound h begin end_ value comp with
    | Some it => Some (it - begin)
    | None => None
    end.

(** [ubf::operator()]: [scalar::upper_bound(begin, end, value, comp) - begin]. *)
Definition ubf : BinarySearchFunction T Z :=
  fun h begin end_ value comp =>
    match scalar.upper_bound h begin end_ value comp with
    | Some it => Some (it - begin)
    | None => None
    end.

(** [bsf::operator()]: [iter = scalar::lower_bound(begin, end, value, comp)],
    then [iter != end && !comp(value, dereference(iter))]; the element is
    not read when [iter == end]. *)
Definition bsf : BinarySearchFunction T bool :=
  fun h begin end_ value comp =>
    match scalar.lower_bound h begin end_ value comp with
    | Some it =>
        if bool_decide (it <> end_)
        then match dereference h it with
             | Some x => Some (negb (comp value x))
             | None => None
             end
        else Some false
    | None => None
    end.

(** [struct binary_search_functor]. *)
Record binary_search_functor (R : Type) : Type := {
  begin : iter;
  end_ : iter;
  comp : StrictWeakOrdering T;
  func : BinarySearchFunction T R
}.
Arguments Build_binary_search_functor {R}.
Arguments begin {R}.
Arguments end_ {R}.
Arguments comp {R}.
Arguments func {R}.

(** [operator()(Tuple t)]: [get<1>(t) = func(begin, end, get<0>(t), comp)]. *)
Definition call {R} `{OutputType T R} (f : binary_search_functor R)
    (t : iter * iter) : M T unit :=
  value <-- reading (fun h => dereference h (fst t)) ;;
  r <-- reading (fun h => func f h (begin f) (end_ f) value (comp f)) ;;
  assign (snd t) (to_val r).

(** Vector implementation (lines 105-119): [for_each] over the zipped
    queries and output, then [output + distance(values_begin, values_end)]. *)
Definition binary_search {R} `{OutputType T R} (begin end_ : iter)
    (values_begin values_end : iter) (output : iter)
    (comp : StrictWeakOrdering T) (func : BinarySearchFunction T R)
  : M T iter :=
  for_each (make_zip_iterator (values_begin, output))
           (make_zip_iterator
              (values_end, output + distance values_begin values_end))
           (call (Build_binary_search_functor begin end_ comp func)) ;;;
  ret (output + distance values_begin values_end).

(** Scalar implementation (lines 124-147), the overload of
    [detail::binary_search] that takes one value: two temporary arrays of
    one cell, [d_value[0] = value], the vector implementation on them, and
    [d_output[0]] for result; the arrays go when the function is left,
    [d_output] first. *)
Definition binary_search_scalar {R} `{OutputType T R} (begin end_ : iter)
    (value : T) (comp : StrictWeakOrdering T)
    (func : BinarySearchFunction T R) : M T R :=
  d_value <-- temporary_array 1 ;;
  d_output <-- temporary_array 1 ;;
  assign d_value (VElem value) ;;;
  binary_search begin end_ d_value (d_value + 1) d_output comp func ;;;
  r <-- reading (fun h => load h d_output) ;;
  release d_output 1 ;;;
  release d_value 1 ;;;
  ret r.

End Detail.

Arguments Build_binary_search_functor {T R}.
Arguments begin {T R}.
Arguments end_ {T R}.
Arguments comp {T R}.
Arguments func {T R}.

End detail.

(** ** Public entry points (binary_search.inl, lines 152-324)

    The source overloads each name; here the overload that takes one value
    and a comparator keeps the name, the one on a batch of values is
    [_vector], and the ones without a comparator are [_default].

    The calls [thrust::lower_bound(...)] and the like made by the overloads
    without a comparator and by [equal_range] go through the tag dispatch of
    [thrust/binary_search.h], which selects the overload of this file with
    the same arguments. *)

Section EntryPoints.
Context {T : Type} `{Less T}.

(** *** Scalar functions *)

(** [begin + detail::binary_search<difference_type>(begin, end, value, comp,
    detail::lbf())] (lines 165-175). *)
Definition lower_bound (begin end_ : iter) (value : T)
    (comp : StrictWeakOrdering T) : M T iter :=
  d <-- detail.binary_search_scalar begin end_ value comp detail.lbf ;;
  ret (begin + d).

(** [thrust::lower_bound(begin, end, value, thrust::less<T>())]
    (lines 156-163). *)
Definition lower_bound_default (begin end_ : iter) (value : T) : M T iter :=
  lower_bound begin end_ value less.

(** Lines 187-197. *)
Definition upper_bound (begin end_ : iter) (value : T)
    (comp : StrictWeakOrdering T) : M T iter :=
  d <-- detail.binary_search_scalar begin end_ value comp detail.ubf ;;
  ret (begin + d).

(** Lines 178-185. *)
Definition upper_bound_default (begin end_ : iter) (value : T) : M T iter :=
  upper_bound begin end_ value less.

(** [detail::binary_search<bool>(begin, end, value, comp, detail::bsf())]
    (lines 209-217). *)
Definition binary_search (begin end_ : iter) (value : T)
    (comp : StrictWeakOrdering T) : M T bool :=
  detail.binary_search_scalar begin end_ value comp detail.bsf.

(** Lines 200-207. *)
Definition binary_search_default (begin end_ : iter) (value : T) : M T bool :=
  binary_search begin end_ value less.

(** *** Vector functions *)

(** Lines 237-247. *)
Definition lower_bound_vector (begin end_ values_begin values_end output : iter)
    (comp : StrictWeakOrdering T) : M T iter :=
  detail.binary_search begin end_ values_begin values_end output comp
                       detail.lbf.

(** [thrust::less<ValueType>], on the value type of the queries
    (lines 224-235). *)
Definition lower_bound_vector_default
    (begin end_ values_begin values_end output : iter) : M T iter :=
  lower_bound_vector begin end_ values_begin values_end output less.

(** Lines 263-273. *)
Definition upper_bound_vector (begin end_ values_begin values_end output : iter)
    (comp : StrictWeakOrdering T) : M T iter :=
  detail.binary_search begin end_ values_begin values_end output comp
                       detail.ubf.

(** Lines 250-261. *)
Definition upper_bound_vector_default
    (begin end_ values_begin values_end output : iter) : M T iter :=
  upper_bound_vector begin end_ values_begin values_end output less.

(** Lines 289-299. *)
Definition binary_search_vector
    (begin end_ values_begin values_end output : iter)
    (comp : StrictWeakOrdering T) : M T iter :=
  detail.binary_search begin end_ values_begin values_end output comp
                       detail.bsf.

(** Lines 276-287. *)
Definition binary_search_vector_default
    (begin end_ values_begin values_end output : iter) : M T iter :=
  binary_search_vector begin end_ values_begin values_end output less.

(** *** equal_range *)

(** [lb = thrust::lower_bound(first, last, value, comp)], then
    [ub = thrust::upper_bound(first, last, value, comp)], and the pair
    (lines 313-324). *)
Definition equal_range (first last : iter) (value : T)
    (comp : StrictWeakOrdering T) : M T (iter * iter) :=
  lb <-- lower_bound first last value comp ;;
  ub <-- upper_bound first last value comp ;;
  ret (lb, ub).

(** Lines 302-310. *)
Definition equal_range_default (first last : iter) (value : T)
  : M T (iter * iter) :=
  equal_range first last value less.

End EntryPoints.

(** ** Scenarios of the specification, S = [1, 3, 3, 3, 5, 7] *)

(** A store holding [l] from address [base] on. *)
Definition place {T} (base : iter) (l : list (val T)) (h : heap T) : heap T :=
  foldr (fun '(a, v) h' => <[a := v]> h') h (zip (addrs base (length l)) l).

Definition S6 : heap Z :=
  place 100 (VElem <$> [1; 3; 3; 3; 5; 7]) ∅.

Definition S6_batch : heap Z :=
  place 200 (VElem <$> [0; 3; 8]) (place 300 [VUninit; VUninit; VUninit] S6).

Definition read_diffs (h : heap Z) (first : iter) (n : nat) : option (list Z) :=
  mapM (load (R:=Z) h) (addrs first n).

(** ** Notions used in the statements *)

Section Orderings.
Context {T : Type}.

(** The comparator is a strict weak ordering: irreflexive, transitive, and
    with a transitive incomparability. *)
Record strict_weak_ordering (comp : StrictWeakOrdering T) : Prop := {
  swo_irreflexive : forall a, comp a a = false;
  swo_transitive : forall a b c, comp a b = true -> comp b c = true -> comp a c = true;
  swo_incomparable :
    forall a b c, comp a b = false -> comp b a = false ->
                  comp b c = false -> comp c b = false ->
                  comp a c = false /\ comp c a = false
}.

(** Sorted with respect to [comp]: no element is ordered before its
    predecessor. *)
Fixpoint is_sorted (comp : StrictWeakOrdering T) (l : list T) : bool :=
  match l with
  | [] => true
  | x :: l' =>
      match l' with
      | [] => true
      | y :: _ => negb (comp y x) && is_sorted comp l'
      end
  end.

(** Equivalence under the ordering: neither is ordered before the other. *)
Definition equivalent (comp : StrictWeakOrdering T) (a b : T) : bool :=
  negb (comp a b) && negb (comp b a).

(** Index of the first element of [l] that satisfies [stop], [length l] when
    there is none. *)
Fixpoint first_index (stop : T -> bool) (l : list T) : nat :=
  match l with
  | [] => O
  | x :: l' => if stop x then O else S (first_index stop l')
  end.

(** The positions the search primitives are specified to find in the
    sequence [l]. *)
Definition lower_index (comp : StrictWeakOrdering T) (l : list T) (v : T) : nat :=
  first_index (fun x => negb (comp x v)) l.

Definition upper_index (comp : StrictWeakOrdering T) (l : list T) (v : T) : nat :=
  first_index (fun x => comp v x) l.

(** Two stores hold the same cells on [[first, last)]. *)
Definition same_on (first last : iter) (h h' : heap T) : Prop :=
  forall a, first <= a < last -> h !! a = h' !! a.

(** Every cell of [[first, last)] exists. *)
Definition allocated (h : heap T) (first last : iter) : Prop :=
  forall a, first <= a < last -> is_Some (h !! a).

(** [[a, b)] and [[c, d)] have no address in common. *)
Definition disjoint (a b c d : iter) : Prop :=
  forall x, a <= x < b -> c <= x < d -> False.

(** A search functor reads nothing but the sequence it is given, and
    returns on every sequence that can be read. *)
Record well_behaved {R} (func : BinarySearchFunction T R) : Prop := {
  func_local : forall h h' b e v comp,
      b <= e -> same_on b e h h' -> func h b e v comp = func h' b e v comp;
  func_total : forall h b e v comp l,
      read_range h b e = Some l -> is_Some (func h b e v comp)
}.

(** What the output cell of index [k] holds once the results [res] have
    been written. *)
Definition written {R} `{OutputType T R} (res : list R) (k : nat) : val T :=
  match res !! k with
  | Some r => to_val r
  | None => VUninit
  end.

End Orderings.

(** ** Contracts of the dispatcher and of the bridge *)

Section Contracts.
Context {T : Type}.
Implicit Types (h : heap T) (comp : StrictWeakOrdering T).

(** A batch call as the caller has to set it up: a sequence [xs] that can be
    read in [[b, e)], queries [qs] that can be read in [[vb, ve)], and an
    output buffer of as many existing cells from [out] on that overlaps
    neither. *)
Record batch_call h (b e vb ve out : iter) (xs qs : list T) : Prop := {
  batch_sequence : read_range h b e = Some xs;
  batch_queries : read_range h vb ve = Some qs;
  batch_output : allocated h out (out + distance vb ve);
  batch_apart_sequence : disjoint out (out + distance vb ve) b e;
  batch_apart_queries : disjoint out (out + distance vb ve) vb ve
}.

(** The dispatcher returns, and afterwards output cell [i] holds what
    [func] gives for query [i] on the caller's store; visiting the indices
    in any other order ends in the same store. *)
Definition batch_contract {R} `{OutputType T R} (func : BinarySearchFunction T R)
    h (b e vb ve out : iter) comp (qs : list T) : Prop :=
  exists h',
    detail.binary_search b e vb ve out comp func h
      = Some (out + distance vb ve, h') /\
    (forall (i : nat) q, qs !! i = Some q ->
       exists r, func h b e q comp = Some r /\
                 load h' (out + Z.of_nat i) = Some r) /\
    (forall order, order ≡ₚ seq 0 (length qs) ->
       for_each_in order (vb, out)
         (detail.call (detail.Build_binary_search_functor b e comp func)) h
       = Some (tt, h')).

(** The batch call [run] returns, and changes no cell outside the output
    buffer: the sequence and the queries read as before. *)
Definition batch_frame (run : M T iter) h (b e vb ve out : iter)
    (xs qs : list T) : Prop :=
  exists it h',
    run h = Some (it, h') /\
    (forall a, ~ (out <= a < out + distance vb ve) -> h' !! a = h !! a) /\
    read_range h' b e = Some xs /\
    read_range h' vb ve = Some qs.




End Contracts.

(** * Properties *)

(** ** Addresses and ranges *)

Section Ranges.
Context {T : Type}.
Implicit Types (h : heap T) (l : list T).

Lemma addrs_seqZ first n : addrs first n = seqZ first (Z.of_nat n).
Proof.
  revert first. induction n as [|n IH]; intros first; [done|].
  cbn [addrs]. rewrite IH, (seqZ_cons first) by lia.
  do 2 f_equal; lia.
Qed.

Lemma length_addrs first n : length (addrs first n) = n.
Proof. rewrite addrs_seqZ, length_seqZ. lia. Qed.

Lemma elem_of_addrs a first n :
  a ∈ addrs first n <-> first <= a < first + Z.of_nat n.
Proof. rewrite addrs_seqZ, elem_of_seqZ. lia. Qed.

Lemma lookup_addrs first n (k : nat) :
  (k < n)%nat -> addrs first n !! k = Some (first + Z.of_nat k).
Proof. intros ?. rewrite addrs_seqZ. apply lookup_seqZ. lia. Qed.

Lemma dereference_same h h' a :
  h !! a = h' !! a -> dereference h a = dereference h' a.
Proof. unfold dereference. by intros ->. Qed.

Lemma mapM_dereference_same h h' first n :
  same_on first (first + Z.of_nat n) h h' ->
  mapM (dereference h) (addrs first n) = mapM (dereference h') (addrs first n).
Proof.
  revert first. induction n as [|n IH]; intros first Hs; [done|].
  simpl.
  rewrite (dereference_same h h' first) by (apply Hs; lia).
  rewrite IH; [done|]. intros a ?. apply Hs. lia.
Qed.

Lemma read_range_same h h' first last :
  same_on first last h h' -> read_range h first last = read_range h' first last.
Proof.
  intros Hs. unfold read_range, distance. case_bool_decide; [|done].
  apply mapM_dereference_same. intros a ?. apply Hs. lia.
Qed.

Lemma read_range_Some h first last l :
  read_range h first last = Some l ->
  first <= last /\ Z.of_nat (length l) = last - first /\
  forall (k : nat) x, l !! k = Some x -> h !! (first + Z.of_nat k) = Some (VElem x).
Proof.
  unfold read_range, distance. case_bool_decide as Hle; [|done].
  intros Hm. apply mapM_Some in Hm.
  pose proof (Forall2_length _ _ _ Hm) as Hlen. rewrite length_addrs in Hlen.
  split; [done|]. split; [lia|].
  intros k x Hk.
  assert (Hk' : (k < Z.to_nat (last - first))%nat).
  { rewrite Hlen. by eapply lookup_lt_Some. }
  destruct (Forall2_lookup_r _ _ _ _ _ Hm Hk) as (a & Ha & Hd).
  rewrite lookup_addrs in Ha by done. injection Ha as <-.
  unfold dereference in Hd.
  repeat case_match; by simplify_eq.
Qed.

Lemma read_range_allocated h first last l :
  read_range h first last = Some l -> allocated h first last.
Proof.
  intros Hr a Ha. destruct (read_range_Some _ _ _ _ Hr) as (_ & Hlen & Hl).
  destruct (lookup_lt_is_Some_2 l (Z.to_nat (a - first))) as [x Hx]; [lia|].
  apply Hl in Hx. replace (first + _) with a in Hx by lia. by eexists.
Qed.

End Ranges.

(** ** The search functors on a readable sequence *)

Section Functors.
Context {T : Type}.
Implicit Types (h : heap T) (l : list T) (comp : StrictWeakOrdering T).

Lemma first_index_le (stop : T -> bool) l :
  (first_index stop l <= length l)%nat.
Proof. induction l as [|x l IH]; simpl; [lia|]. destruct (stop x); lia. Qed.

Lemma first_index_stop (stop : T -> bool) l x :
  l !! first_index stop l = Some x -> stop x = true.
Proof.
  induction l as [|y l IH]; simpl; [done|].
  destruct (stop y) eqn:Hy; simpl; [congruence|done].
Qed.

Lemma first_index_before (stop : T -> bool) l (k : nat) x :
  (k < first_index stop l)%nat -> l !! k = Some x -> stop x = false.
Proof.
  revert k. induction l as [|y l IH]; intros k; simpl; [lia|].
  destruct (stop y) eqn:Hy; [lia|].
  destruct k as [|k]; simpl; [congruence|]. intros ?. apply IH. lia.
Qed.

(** The first position at which [stop] holds is characterised by what holds
    before it and at it. *)
Lemma first_index_unique (stop : T -> bool) l (i : nat) :
  (i <= length l)%nat ->
  (forall (k : nat) x, (k < i)%nat -> l !! k = Some x -> stop x = false) ->
  (forall x, l !! i = Some x -> stop x = true) ->
  first_index stop l = i.
Proof.
  revert i. induction l as [|y l IH]; intros i Hi Hb Ha; simpl in *.
  - lia.
  - destruct (stop y) eqn:Hy.
    + destruct i as [|i]; [done|].
      specialize (Hb O y ltac:(lia) eq_refl). congruence.
    + destruct i as [|i].
      * specialize (Ha y eq_refl). congruence.
      * f_equal. apply IH; [lia| |done].
        intros k x ? ?. apply (Hb (S k)); [lia|done].
Qed.

Lemma first_position_same h h' (stop : T -> bool) first n :
  same_on first (first + Z.of_nat n) h h' ->
  scalar.first_position h stop first n = scalar.first_position h' stop first n.
Proof.
  revert first. induction n as [|n IH]; intros first Hs; [done|].
  simpl. rewrite (dereference_same h h' first) by (apply Hs; lia).
  rewrite IH; [done|]. intros a ?. apply Hs. lia.
Qed.

Lemma first_position_readable h (stop : T -> bool) first n l :
  mapM (dereference h) (addrs first n) = Some l ->
  scalar.first_position h stop first n
  = Some (first + Z.of_nat (first_index stop l)).
Proof.
  revert first l. induction n as [|n IH]; intros first l; simpl.
  - intros [= <-]. simpl. f_equal. lia.
  - destruct (dereference h first) as [x|]; simpl; [|done].
    destruct (mapM (dereference h) (addrs (first + 1) n)) as [l'|] eqn:Hl';
      simpl; [|done].
    intros [= <-]. simpl. destruct (stop x); [f_equal; lia|].
    rewrite (IH _ _ Hl'). f_equal. lia.
Qed.

Lemma lbf_readable h b e v comp l :
  read_range h b e = Some l ->
  detail.lbf h b e v comp = Some (Z.of_nat (lower_index comp l v)).
Proof.
  unfold read_range, detail.lbf, scalar.lower_bound. case_bool_decide; [|done].
  intros Hl. rewrite (first_position_readable _ _ _ _ _ Hl).
  unfold lower_index. f_equal. lia.
Qed.

Lemma ubf_readable h b e v comp l :
  read_range h b e = Some l ->
  detail.ubf h b e v comp = Some (Z.of_nat (upper_index comp l v)).
Proof.
  unfold read_range, detail.ubf, scalar.upper_bound. case_bool_decide; [|done].
  intros Hl. rewrite (first_position_readable _ _ _ _ _ Hl).
  unfold upper_index. f_equal. lia.
Qed.

Lemma bsf_readable h b e v comp l :
  read_range h b e = Some l ->
  detail.bsf h b e v comp
  = Some (match l !! lower_index comp l v with
          | Some x => negb (comp v x)
          | None => false
          end).
Proof.
  intros Hr. destruct (read_range_Some _ _ _ _ Hr) as (Hle & Hlen & Hl).
  revert Hr. unfold read_range, detail.bsf, scalar.lower_bound.
  case_bool_decide; [|done]. intros Hm.
  rewrite (first_position_readable _ _ _ _ _ Hm). fold (lower_index comp l v).
  pose proof (first_index_le (fun x => negb (comp x v)) l) as Hi.
  fold (lower_index comp l v) in Hi.
  case_bool_decide as Hne.
  - destruct (lookup_lt_is_Some_2 l (lower_index comp l v)) as [x Hx]; [lia|].
    rewrite Hx. unfold dereference. by rewrite (Hl _ _ Hx).
  - rewrite lookup_ge_None_2; [done|]. lia.
Qed.

Lemma lbf_well_behaved : well_behaved (T:=T) detail.lbf.
Proof.
  split.
  - intros h h' b e v comp Hle Hs. unfold detail.lbf, scalar.lower_bound.
    rewrite (first_position_same h h'); [done|].
    intros a ?. apply Hs. unfold distance in *. lia.
  - intros h b e v comp l Hr. rewrite (lbf_readable _ _ _ _ _ _ Hr). by eexists.
Qed.

Lemma ubf_well_behaved : well_behaved (T:=T) detail.ubf.
Proof.
  split.
  - intros h h' b e v comp Hle Hs. unfold detail.ubf, scalar.upper_bound.
    rewrite (first_position_same h h'); [done|].
    intros a ?. apply Hs. unfold distance in *. lia.
  - intros h b e v comp l Hr. rewrite (ubf_readable _ _ _ _ _ _ Hr). by eexists.
Qed.

End Functors.

Section FunctorsLocal.
Context {T : Type}.
Implicit Types (h : heap T) (comp : StrictWeakOrdering T).

Lemma first_position_bounds h (stop : T -> bool) first n it :
  scalar.first_position h stop first n = Some it ->
  first <= it <= first + Z.of_nat n.
Proof.
  revert first. induction n as [|n IH]; intros first; simpl.
  - intros [= <-]. lia.
  - destruct (dereference h first); [|done].
    destruct (stop t); [intros [= <-]; lia|].
    intros Hn. apply IH in Hn. lia.
Qed.

Lemma bsf_well_behaved : well_behaved (T:=T) detail.bsf.
Proof.
  split.
  - intros h h' b e v comp Hle Hs. unfold detail.bsf, scalar.lower_bound.
    rewrite <- (first_position_same h h');
      [|intros a ?; apply Hs; unfold distance in *; lia].
    destruct (scalar.first_position h _ b _) as [it|] eqn:Hit; [|done].
    apply first_position_bounds in Hit. unfold distance in Hit.
    case_bool_decide; [|done].
    rewrite (dereference_same h h' it); [done|]. apply Hs. lia.
  - intros h b e v comp l Hr. rewrite (bsf_readable _ _ _ _ _ _ Hr). by eexists.
Qed.

End FunctorsLocal.

(** ** Writes of the dispatcher and buffers of the bridge *)

Section Memory.
Context {T : Type}.
Implicit Types (h : heap T) (comp : StrictWeakOrdering T).

Lemma heap_top_above h a : is_Some (h !! a) -> a < heap_top h.
Proof.
  unfold heap_top. revert a.
  apply (map_fold_weak_ind (fun r (m : heap T) => forall a, is_Some (m !! a) -> a < r)).
  - intros a [x Hx]. by rewrite lookup_empty in Hx.
  - intros i x m r Hi IH a Ha. destruct (decide (a = i)) as [->|Hne]; [lia|].
    rewrite lookup_insert_ne in Ha by done. specialize (IH a Ha). lia.
Qed.

Lemma heap_top_fresh h a : heap_top h <= a -> h !! a = None.
Proof.
  intros Hle. destruct (h !! a) eqn:Ha; [|done].
  pose proof (heap_top_above h a ltac:(by eexists)). lia.
Qed.

(** The store after cell [out + k] received [w k], for each [k] of [order]
    in turn. *)
Lemma lookup_writes_other (w : nat -> val T) out order h a :
  (forall k : nat, k ∈ order -> a <> out + Z.of_nat k) ->
  foldl (fun h' (k : nat) => <[out + Z.of_nat k := w k]> h') h order !! a = h !! a.
Proof.
  revert h. induction order as [|k order IH]; intros h Hne; simpl; [done|].
  rewrite IH by (intros; apply Hne; by right).
  apply lookup_insert_ne. apply not_eq_sym, Hne. by left.
Qed.

Lemma lookup_writes_at (w : nat -> val T) out order h (k : nat) :
  k ∈ order ->
  foldl (fun h' (k : nat) => <[out + Z.of_nat k := w k]> h') h order
    !! (out + Z.of_nat k) = Some (w k).
Proof.
  revert h. induction order as [|j order IH]; intros h Hk; simpl.
  - by apply elem_of_nil in Hk.
  - destruct (decide (k ∈ order)) as [Hin|Hnin]; [by apply IH|].
    apply elem_of_cons in Hk as [->|]; [|done].
    rewrite lookup_writes_other; [apply lookup_insert_eq|].
    intros k' Hk' ?. assert (j = k') by lia. by subst.
Qed.

Lemma for_each_in_writes (f : iter * iter -> M T unit) first
    (w : nat -> val T) (P : heap T -> Prop) order h :
  (forall h' (k : nat), k ∈ order -> P h' ->
     f (zip_at first k) h' = Some (tt, <[snd first + Z.of_nat k := w k]> h')) ->
  (forall h' (k : nat), k ∈ order -> P h' ->
     P (<[snd first + Z.of_nat k := w k]> h')) ->
  P h ->
  for_each_in order first f h
  = Some (tt, foldl (fun h' (k : nat) => <[snd first + Z.of_nat k := w k]> h')
                    h order).
Proof.
  revert h. induction order as [|k order IH]; intros h Hf HP Hh; [done|].
  cbn [for_each_in foldl]. unfold bind at 1.
  rewrite (Hf h k) by (done || by left).
  apply IH.
  - intros h' k' ? ?. apply Hf; [by right|done].
  - intros h' k' ? ?. apply HP; [by right|done].
  - apply HP; [by left|done].
Qed.

End Memory.

(** ** The vectorised dispatcher *)

Section Dispatcher.
Context {T R : Type} `{OutputType T R}.
Implicit Types (h : heap T) (comp : StrictWeakOrdering T)
  (func : BinarySearchFunction T R).

Lemma writes_same_elements (w : nat -> val T) out (o1 o2 : list nat) h :
  (forall k : nat, k ∈ o1 <-> k ∈ o2) ->
  foldl (fun h' (k : nat) => <[out + Z.of_nat k := w k]> h') h o1
  = foldl (fun h' (k : nat) => <[out + Z.of_nat k := w k]> h') h o2.
Proof.
  intros Ho. apply map_eq. intros a.
  destruct (decide (out <= a /\ Z.to_nat (a - out) ∈ o1)) as [[Hle Hin]|Hn].
  - replace a with (out + Z.of_nat (Z.to_nat (a - out))) by lia.
    rewrite !lookup_writes_at; [done| |done]. by apply Ho.
  - rewrite !lookup_writes_other; [done| |].
    + intros k Hk ->. apply Hn. split; [lia|].
      replace (Z.to_nat _) with k by lia. by apply Ho.
    + intros k Hk ->. apply Hn. split; [lia|].
      by replace (Z.to_nat _) with k by lia.
Qed.

Lemma results_exist func h b e comp (qs : list T) l :
  well_behaved func -> read_range h b e = Some l ->
  exists res : list R, Forall2 (fun q r => func h b e q comp = Some r) qs res.
Proof.
  intros Hwb Hr. induction qs as [|q qs [res IH]]; [by exists []|].
  destruct (func_total _ Hwb h b e q comp l Hr) as [r Hq].
  exists (r :: res). by constructor.
Qed.

Lemma call_writes func h0 h b e vb out comp (k : nat) q r :
  well_behaved func -> b <= e -> same_on b e h0 h ->
  h !! (vb + Z.of_nat k) = Some (VElem q) ->
  func h0 b e q comp = Some r ->
  is_Some (h !! (out + Z.of_nat k)) ->
  detail.call (detail.Build_binary_search_functor b e comp func)
              (zip_at (vb, out) k) h
  = Some (tt, <[out + Z.of_nat k := to_val r]> h).
Proof.
  intros Hwb Hle Hs Hq Hr [x Hx].
  unfold detail.call, bind, reading, assign, store, dereference; simpl.
  rewrite Hq. rewrite <- (func_local _ Hwb h0 h) by done.
  rewrite Hr. by rewrite Hx.
Qed.

(** The dispatcher run in any order of the indices. *)
Lemma dispatch_in func order h b e vb ve out comp (xs qs : list T) (res : list R) :
  well_behaved func ->
  read_range h b e = Some xs ->
  read_range h vb ve = Some qs ->
  Forall2 (fun q r => func h b e q comp = Some r) qs res ->
  allocated h out (out + distance vb ve) ->
  disjoint out (out + distance vb ve) b e ->
  disjoint out (out + distance vb ve) vb ve ->
  (forall k : nat, k ∈ order -> (k < length qs)%nat) ->
  for_each_in order (vb, out)
    (detail.call (detail.Build_binary_search_functor b e comp func)) h
  = Some (tt, foldl (fun h' (k : nat) => <[out + Z.of_nat k := written res k]> h')
                    h order).
Proof.
  intros Hwb HS HQ Hres Hal Hd1 Hd2 Hord.
  destruct (read_range_Some _ _ _ _ HS) as (Hle & _ & _).
  destruct (read_range_Some _ _ _ _ HQ) as (Hvle & Hlen & HQl).
  unfold distance in *.
  apply (for_each_in_writes _ (vb, out) (written res)
           (fun h' => same_on b e h h' /\ same_on vb ve h h' /\
                      allocated h' out (out + (ve - vb)))).
  - intros h' k Hk (Hs1 & Hs2 & Hal'). specialize (Hord k Hk).
    destruct (lookup_lt_is_Some_2 qs k Hord) as [q Hq].
    destruct (Forall2_lookup_l _ _ _ _ _ Hres Hq) as (r & Hr & Hfr).
    unfold written. rewrite Hr. simpl.
    apply (call_writes func h h' b e vb out comp k q r); try done.
    + rewrite <- Hs2 by lia. by apply HQl.
    + apply Hal'. lia.
  - intros h' k Hk (Hs1 & Hs2 & Hal'). specialize (Hord k Hk). simpl.
    split; [|split].
    + intros a Ha. rewrite lookup_insert_ne; [by apply Hs1|].
      intros <-. apply (Hd1 (out + Z.of_nat k)); lia.
    + intros a Ha. rewrite lookup_insert_ne; [by apply Hs2|].
      intros <-. apply (Hd2 (out + Z.of_nat k)); lia.
    + intros a Ha. rewrite lookup_insert. case_decide; [by eexists|by apply Hal'].
  - by split; [|split].
Qed.

(** The dispatcher: what it returns and what the store holds afterwards. *)
Lemma dispatch func h b e vb ve out comp (xs qs : list T) :
  well_behaved func ->
  read_range h b e = Some xs ->
  read_range h vb ve = Some qs ->
  allocated h out (out + distance vb ve) ->
  disjoint out (out + distance vb ve) b e ->
  disjoint out (out + distance vb ve) vb ve ->
  exists (res : list R) h',
    detail.binary_search b e vb ve out comp func h
      = Some (out + distance vb ve, h') /\
    Forall2 (fun q r => func h b e q comp = Some r) qs res /\
    (forall (k : nat) r, res !! k = Some r ->
       h' !! (out + Z.of_nat k) = Some (to_val r)) /\
    (forall a, ~ (out <= a < out + distance vb ve) -> h' !! a = h !! a) /\
    (forall order, order ≡ₚ seq 0 (length qs) ->
       for_each_in order (vb, out)
         (detail.call (detail.Build_binary_search_functor b e comp func)) h
       = Some (tt, h')).
Proof.
  intros Hwb HS HQ Hal Hd1 Hd2.
  destruct (results_exist func h b e comp qs xs Hwb HS) as [res Hres].
  destruct (read_range_Some _ _ _ _ HQ) as (Hvle & Hlen & _).
  pose proof (Forall2_length _ _ _ Hres) as Hlr.
  assert (HN : Z.to_nat (distance vb ve) = length qs) by (unfold distance; lia).
  exists res, (foldl (fun h' (k : nat) => <[out + Z.of_nat k := written res k]> h')
                     h (seq 0 (length qs))).
  split; [|split; [done|split; [|split]]].
  - unfold detail.binary_search, for_each, make_zip_iterator, bind, ret. simpl.
    rewrite HN.
    rewrite (dispatch_in func _ h b e vb ve out comp xs qs res); try done.
    intros k Hk. apply elem_of_seq in Hk. lia.
  - intros k r Hr. rewrite lookup_writes_at.
    + unfold written. by rewrite Hr.
    + apply elem_of_seq. apply lookup_lt_Some in Hr. lia.
  - intros a Ha. apply lookup_writes_other.
    intros k Hk ->. apply elem_of_seq in Hk. apply Ha. unfold distance. lia.
  - intros order Hp.
    rewrite (dispatch_in func order h b e vb ve out comp xs qs res); try done.
    + do 2 f_equal. apply writes_same_elements. intros k. by rewrite Hp.
    + intros k Hk. rewrite Hp in Hk. apply elem_of_seq in Hk. lia.
Qed.

End Dispatcher.

(** ** The scalar bridge *)

Section Bridge.
Context {T R : Type} `{OutputType T R}.
Implicit Types (h : heap T) (comp : StrictWeakOrdering T)
  (func : BinarySearchFunction T R).

Lemma read_range_singleton h a (v : T) :
  h !! a = Some (VElem v) -> read_range h a (a + 1) = Some [v].
Proof.
  intros Ha. unfold read_range, distance.
  rewrite bool_decide_eq_true_2 by lia.
  replace (a + 1 - a) with 1 by lia. simpl.
  unfold dereference. by rewrite Ha.
Qed.

(** The scalar implementation runs the dispatcher on a one-element batch
    held in two fresh cells, returns what the dispatcher wrote, which is what
    the functor gives on the caller's store, and leaves that store as it
    found it. *)
Lemma scalar_bridge func h b e (v : T) comp (xs : list T) :
  well_behaved func ->
  read_range h b e = Some xs ->
  let d_value := heap_top h in
  let d_output := heap_top (<[d_value := VUninit]> h) in
  exists (r : R) h',
    detail.binary_search b e d_value (d_value + 1) d_output comp func
      (<[d_value := VElem v]> (<[d_output := VUninit]> (<[d_value := VUninit]> h)))
      = Some (d_output + 1, h') /\
    load h' d_output = Some r /\
    func h b e v comp = Some r /\
    detail.binary_search_scalar b e v comp func h = Some (r, h).
Proof.
  intros Hwb HS dv dout.
  set (h3 := <[dv := VElem v]> (<[dout := VUninit]> (<[dv := VUninit]> h))).
  destruct (read_range_Some _ _ _ _ HS) as (Hle & _ & _).
  pose proof (read_range_allocated _ _ _ _ HS) as Hal.
  assert (Hdv : h !! dv = None) by (apply heap_top_fresh; subst dv; lia).
  assert (Hlt : dv < dout).
  { apply heap_top_above. rewrite lookup_insert_eq. by eexists. }
  assert (Hdout : h !! dout = None) by (apply heap_top_fresh; subst dv; lia).
  assert (Hin : forall a, b <= a < e -> a < dv).
  { intros a Ha. by apply heap_top_above, Hal. }
  assert (Hs : same_on b e h h3).
  { intros a Ha. specialize (Hin a Ha). subst h3.
    rewrite !lookup_insert_ne by lia. done. }
  assert (HS3 : read_range h3 b e = Some xs).
  { by rewrite <- (read_range_same h h3). }
  assert (HQ3 : read_range h3 dv (dv + 1) = Some [v]).
  { apply read_range_singleton. subst h3. apply lookup_insert_eq. }
  destruct (dispatch func h3 b e dv (dv + 1) dout comp xs [v] Hwb HS3 HQ3)
    as (res & h' & Hrun & Hres & Hout & Hframe & _).
  { intros a Ha. unfold distance in Ha. assert (a = dout) as -> by lia.
    subst h3. rewrite lookup_insert_ne by lia. rewrite lookup_insert_eq.
    by eexists. }
  { intros a Ha Hb. unfold distance in Ha. specialize (Hin a Hb). lia. }
  { intros a Ha Hb. unfold distance in Ha. lia. }
  unfold distance in Hrun, Hframe. replace (dv + 1 - dv) with 1 in * by lia.
  apply Forall2_cons_inv_l in Hres as (r & res' & Hr & Hres' & ->).
  apply Forall2_nil_inv_l in Hres' as ->.
  specialize (Hout O r eq_refl). replace (dout + Z.of_nat 0) with dout in Hout by lia.
  rewrite <- (func_local _ Hwb h h3) in Hr by done.
  exists r, h'. split; [done|]. split; [|split; [done|]].
  - unfold load. rewrite Hout. apply of_to_val.
  - unfold detail.binary_search_scalar, bind, temporary_array, assign, store,
      reading, release, ret, load. simpl.
    fold dv. fold dout.
    rewrite lookup_insert_ne by lia. rewrite lookup_insert_eq.
    fold h3. rewrite Hrun. rewrite Hout, of_to_val.
    do 2 f_equal. apply map_eq. intros a.
    destruct (decide (a = dv)) as [->|Hne1]; [by rewrite lookup_delete_eq|].
    rewrite lookup_delete_ne by done.
    destruct (decide (a = dout)) as [->|Hne2]; [by rewrite lookup_delete_eq|].
    rewrite lookup_delete_ne by done.
    rewrite Hframe by lia. subst h3. by rewrite !lookup_insert_ne by done.
Qed.

End Bridge.

(** ** Positions found in a sorted sequence *)

Section Sorted.
Context {T : Type}.
Context (comp : StrictWeakOrdering T).
Implicit Types (l : list T) (v : T).

Lemma swo_asymmetric :
  strict_weak_ordering comp ->
  forall a b, comp a b = true -> comp b a = false.
Proof.
  intros Hswo a b Hab. destruct (comp b a) eqn:Hba; [|done].
  pose proof (swo_transitive _ Hswo a b a Hab Hba) as Haa.
  rewrite (swo_irreflexive _ Hswo) in Haa. done.
Qed.

(** Whatever is ordered before [b] is ordered before [c], or [c] before [b]. *)
Lemma swo_between :
  strict_weak_ordering comp ->
  forall a b c, comp a b = true -> comp a c = false -> comp c b = false -> False.
Proof.
  intros Hswo a b c Hab Hac Hcb.
  assert (Hca : comp c a = false).
  { destruct (comp c a) eqn:Hca; [|done].
    rewrite (swo_transitive _ Hswo c a b Hca Hab) in Hcb. done. }
  assert (Hbc : comp b c = false).
  { destruct (comp b c) eqn:Hbc; [|done].
    rewrite (swo_transitive _ Hswo a b c Hab Hbc) in Hac. done. }
  destruct (swo_incomparable _ Hswo a c b Hac Hca Hcb Hbc) as [Hab' _].
  congruence.
Qed.

Lemma is_sorted_tail x l : is_sorted comp (x :: l) = true -> is_sorted comp l = true.
Proof. destruct l as [|y l]; simpl; [done|]. by intros [_ ?]%andb_prop. Qed.

Lemma is_sorted_head x l :
  strict_weak_ordering comp ->
  is_sorted comp (x :: l) = true -> Forall (fun y => comp y x = false) l.
Proof.
  intros Hswo. revert x. induction l as [|y l IH]; intros x Hs; [constructor|].
  pose proof (is_sorted_tail _ _ Hs) as Hs'.
  simpl in Hs. apply andb_prop in Hs as [Hyx%negb_true_iff _].
  constructor; [done|].
  eapply Forall_impl; [by apply IH|]. intros z Hzy. simpl in Hzy.
  destruct (comp z x) eqn:Hzx; [|done].
  destruct (swo_between Hswo z x y Hzx Hzy Hyx).
Qed.

(** In a sorted sequence no element is ordered before an earlier one. *)
Lemma is_sorted_pairwise l (i j : nat) x y :
  strict_weak_ordering comp -> is_sorted comp l = true ->
  (i < j)%nat -> l !! i = Some x -> l !! j = Some y -> comp y x = false.
Proof.
  intros Hswo. revert i j. induction l as [|z l IH]; intros i j Hs Hij Hx Hy.
  - done.
  - destruct j as [|j]; [lia|]. destruct i as [|i]; simpl in *.
    + injection Hx as ->.
      pose proof (is_sorted_head _ _ Hswo Hs) as Hall.
      rewrite Forall_lookup in Hall. by apply (Hall j).
    + apply (IH i j); [by eapply is_sorted_tail|lia|done|done].
Qed.

Lemma lower_index_le l v : (lower_index comp l v <= length l)%nat.
Proof. apply first_index_le. Qed.

Lemma upper_index_le l v : (upper_index comp l v <= length l)%nat.
Proof. apply first_index_le. Qed.

Lemma lower_le_upper l v :
  (forall a b, comp a b = true -> comp b a = false) ->
  (lower_index comp l v <= upper_index comp l v)%nat.
Proof.
  intros Hasym. destruct (decide (lower_index comp l v <= upper_index comp l v)%nat)
    as [|Hlt]; [done|exfalso].
  pose proof (lower_index_le l v).
  destruct (lookup_lt_is_Some_2 l (upper_index comp l v)) as [y Hy]; [lia|].
  pose proof (first_index_stop _ _ _ Hy) as Hvy. simpl in Hvy.
  pose proof (first_index_before (fun x => negb (comp x v)) l
                (upper_index comp l v) y ltac:(unfold lower_index in *; lia) Hy) as Hyv.
  apply negb_false_iff in Hyv. rewrite (Hasym _ _ Hvy) in Hyv. done.
Qed.

(** What [bsf] tests against what the two bounds say. *)
Lemma member_iff_bounds l v :
  (forall a b, comp a b = true -> comp b a = false) ->
  match l !! lower_index comp l v with
  | Some x => negb (comp v x)
  | None => false
  end = true <-> lower_index comp l v <> upper_index comp l v.
Proof.
  intros Hasym. pose proof (lower_le_upper l v Hasym) as Hle.
  pose proof (upper_index_le l v) as Hub.
  destruct (l !! lower_index comp l v) as [x|] eqn:Hx.
  - split.
    + intros Hvx%negb_true_iff Heq. rewrite Heq in Hx.
      pose proof (first_index_stop _ _ _ Hx) as Hvx'. simpl in Hvx'. congruence.
    + intros Hne. apply negb_true_iff.
      apply (first_index_before (fun y => comp v y) l (lower_index comp l v) x);
        [unfold upper_index in *; lia|done].
  - apply lookup_ge_None in Hx. split; [done|lia].
Qed.

(** In a sorted sequence the elements equivalent to [v] are those at the
    positions from the lower bound up to the upper bound. *)
Lemma equivalent_iff_between l v (i : nat) x :
  strict_weak_ordering comp -> is_sorted comp l = true ->
  l !! i = Some x ->
  equivalent comp x v = true <->
  (lower_index comp l v <= i < upper_index comp l v)%nat.
Proof.
  intros Hswo Hs Hx. unfold equivalent.
  rewrite andb_true_iff, !negb_true_iff. split.
  - intros [Hxv Hvx]. split.
    + destruct (decide (lower_index comp l v <= i)%nat) as [|Hlt]; [done|].
      pose proof (first_index_before (fun y => negb (comp y v)) l i x
                    ltac:(unfold lower_index in *; lia) Hx) as Hc.
      apply negb_false_iff in Hc. congruence.
    + destruct (decide (i < upper_index comp l v)%nat) as [|Hge]; [done|exfalso].
      pose proof (lookup_lt_Some _ _ _ Hx) as Hi.
      destruct (lookup_lt_is_Some_2 l (upper_index comp l v)) as [y Hy]; [lia|].
      pose proof (first_index_stop _ _ _ Hy) as Hvy. simpl in Hvy.
      destruct (decide (upper_index comp l v = i)) as [Heq|Hne].
      * rewrite Heq in Hy. congruence.
      * pose proof (is_sorted_pairwise l (upper_index comp l v) i y x Hswo Hs
                      ltac:(lia) Hy Hx) as Hxy.
        destruct (swo_between Hswo v y x Hvy Hvx Hxy).
  - intros [Hlo Hhi]. split.
    + pose proof (lookup_lt_Some _ _ _ Hx) as Hi.
      destruct (lookup_lt_is_Some_2 l (lower_index comp l v)) as [y Hy]; [lia|].
      pose proof (first_index_stop _ _ _ Hy) as Hyv. simpl in Hyv.
      apply negb_true_iff in Hyv.
      destruct (decide (lower_index comp l v = i)) as [Heq|Hne].
      * rewrite Heq in Hy. congruence.
      * pose proof (is_sorted_pairwise l (lower_index comp l v) i y x Hswo Hs
                      ltac:(lia) Hy Hx) as Hxy.
        destruct (comp x v) eqn:Hxv; [|done].
        destruct (swo_between Hswo x v y Hxv Hxy Hyv).
    + by apply (first_index_before (fun y => comp v y) l i x).
Qed.

End Sorted.

(** ** The dispatcher on a well-formed batch call *)

Section BatchCall.
Context {T R : Type} `{OutputType T R}.
Implicit Types (h : heap T) (comp : StrictWeakOrdering T)
  (func : BinarySearchFunction T R).

Lemma dispatch_contract func h b e vb ve out comp (xs qs : list T) :
  well_behaved func -> batch_call h b e vb ve out xs qs ->
  batch_contract func h b e vb ve out comp qs.
Proof.
  intros Hwb [HS HQ Hal Hd1 Hd2].
  destruct (dispatch func h b e vb ve out comp xs qs Hwb HS HQ Hal Hd1 Hd2)
    as (res & h' & Hrun & Hres & Hout & _ & Hord).
  exists h'. split; [done|]. split; [|done].
  intros i q Hq. destruct (Forall2_lookup_l _ _ _ _ _ Hres Hq) as (r & Hr & Hfr).
  exists r. split; [done|]. unfold load. rewrite (Hout _ _ Hr). apply of_to_val.
Qed.

Lemma dispatch_frame func h b e vb ve out comp (xs qs : list T) :
  well_behaved func -> batch_call h b e vb ve out xs qs ->
  batch_frame (detail.binary_search b e vb ve out comp func) h b e vb ve out xs qs.
Proof.
  intros Hwb [HS HQ Hal Hd1 Hd2].
  destruct (dispatch func h b e vb ve out comp xs qs Hwb HS HQ Hal Hd1 Hd2)
    as (res & h' & Hrun & _ & _ & Hframe & _).
  exists (out + distance vb ve), h'. split; [done|]. split; [done|]. split.
  - rewrite <- HS. apply read_range_same. intros a Ha. apply Hframe.
    intros Ho. by apply (Hd1 a).
  - rewrite <- HQ. apply read_range_same. intros a Ha. apply Hframe.
    intros Ho. by apply (Hd2 a).
Qed.

Lemma dispatch_returns func h b e vb ve out comp (xs qs : list T) :
  well_behaved func -> batch_call h b e vb ve out xs qs ->
  fst <$> detail.binary_search b e vb ve out comp func h
  = Some (out + Z.of_nat (length qs)).
Proof.
  intros Hwb [HS HQ Hal Hd1 Hd2].
  destruct (dispatch func h b e vb ve out comp xs qs Hwb HS HQ Hal Hd1 Hd2)
    as (res & h' & Hrun & _).
  destruct (read_range_Some _ _ _ _ HQ) as (_ & Hlen & _).
  rewrite Hrun. simpl. unfold distance. f_equal. lia.
Qed.

(** Without queries nothing is read and nothing is written. *)
Lemma dispatch_empty func h b e vb out comp :
  detail.binary_search b e vb vb out comp func h = Some (out, h).
Proof.
  unfold detail.binary_search, for_each, make_zip_iterator, bind, ret, distance.
  simpl. replace (vb - vb) with 0 by lia. simpl. do 2 f_equal. lia.
Qed.

End BatchCall.

(** ** The batch entry points *)

Section Batch.
Context {T : Type}.
Implicit Types (h : heap T) (comp : StrictWeakOrdering T) (xs qs : list T).

(** C1.  Batch dispatcher contract.  On a batch call whose sequence and
    queries can be read and whose output buffer exists and overlaps neither,
    the dispatcher returns for each of the three operations [lbf], [ubf] and
    [bsf], and afterwards entry [i] of the output is the operation applied
    to the sequence bounds, query [i] and the comparator, whatever the other
    queries are and in whatever order the indices are visited. *)
Theorem batch_dispatcher_contract h b e vb ve out comp xs qs :
  batch_call h b e vb ve out xs qs ->
  batch_contract detail.lbf h b e vb ve out comp qs /\
  batch_contract detail.ubf h b e vb ve out comp qs /\
  batch_contract detail.bsf h b e vb ve out comp qs.
Proof.
  intros Hcall. split; [|split]; eapply dispatch_contract; eauto.
  - apply lbf_well_behaved.
  - apply ubf_well_behaved.
  - apply bsf_well_behaved.
Qed.

(** C9.  Frame property.  A batch call of [lower_bound], [upper_bound] or
    [binary_search] changes no cell outside the [N] entries of the output
    buffer, so the sequence and the queries, which the buffer does not
    overlap, read as before; with no query the call returns the store it was
    given. *)
Theorem batch_writes_only_output h b e vb ve out comp xs qs :
  batch_call h b e vb ve out xs qs ->
  (batch_frame (lower_bound_vector b e vb ve out comp) h b e vb ve out xs qs /\
   batch_frame (upper_bound_vector b e vb ve out comp) h b e vb ve out xs qs /\
   batch_frame (binary_search_vector b e vb ve out comp) h b e vb ve out xs qs) /\
  (vb = ve ->
   lower_bound_vector b e vb ve out comp h = Some (out, h) /\
   upper_bound_vector b e vb ve out comp h = Some (out, h) /\
   binary_search_vector b e vb ve out comp h = Some (out, h)).
Proof.
  intros Hcall. split.
  - split; [|split]; eapply dispatch_frame; eauto.
    + apply lbf_well_behaved.
    + apply ubf_well_behaved.
    + apply bsf_well_behaved.
  - intros <-. split; [|split]; apply dispatch_empty.
Qed.

(** C10.  Returned iterator.  Each batch entry point returns the output
    iterator advanced by the number [N] of queries, hence the output
    iterator itself when there is no query. *)
Theorem batch_returns_output_end h b e vb ve out comp xs qs :
  batch_call h b e vb ve out xs qs ->
  (fst <$> lower_bound_vector b e vb ve out comp h
     = Some (out + Z.of_nat (length qs)) /\
   fst <$> upper_bound_vector b e vb ve out comp h
     = Some (out + Z.of_nat (length qs)) /\
   fst <$> binary_search_vector b e vb ve out comp h
     = Some (out + Z.of_nat (length qs))) /\
  (qs = [] ->
   fst <$> lower_bound_vector b e vb ve out comp h = Some out /\
   fst <$> upper_bound_vector b e vb ve out comp h = Some out /\
   fst <$> binary_search_vector b e vb ve out comp h = Some out).
Proof.
  intros Hcall.
  assert (Hall :
    fst <$> lower_bound_vector b e vb ve out comp h
      = Some (out + Z.of_nat (length qs)) /\
    fst <$> upper_bound_vector b e vb ve out comp h
      = Some (out + Z.of_nat (length qs)) /\
    fst <$> binary_search_vector b e vb ve out comp h
      = Some (out + Z.of_nat (length qs))).
  { split; [|split]; eapply dispatch_returns; eauto.
    - apply lbf_well_behaved.
    - apply ubf_well_behaved.
    - apply bsf_well_behaved. }
  split; [done|]. intros ->.
  change (Z.of_nat (length (@nil T))) with 0 in Hall.
  by rewrite Z.add_0_r in Hall.
Qed.

End Batch.

(** ** The scalar entry points *)

Section ScalarCall.
Context {T R : Type} `{OutputType T R}.
Implicit Types (h : heap T) (comp : StrictWeakOrdering T)
  (func : BinarySearchFunction T R).


End ScalarCall.

Section Scalar.
Context {T : Type}.
Implicit Types (h : heap T) (comp : StrictWeakOrdering T) (xs : list T) (v : T).

Lemma scalar_returns {R} `{OutputType T R} (func : BinarySearchFunction T R)
    h b e v comp xs r :
  well_behaved func -> read_range h b e = Some xs ->
  func h b e v comp = Some r ->
  detail.binary_search_scalar b e v comp func h = Some (r, h).
Proof.
  intros Hwb HS Hr.
  destruct (scalar_bridge func h b e v comp xs Hwb HS) as (r' & _ & _ & _ & Hr' & Hrun).
  congruence.
Qed.

Lemma lower_bound_readable h b e v comp xs :
  read_range h b e = Some xs ->
  lower_bound b e v comp h = Some (b + Z.of_nat (lower_index comp xs v), h).
Proof.
  intros HS. unfold lower_bound, bind, ret.
  by rewrite (scalar_returns detail.lbf h b e v comp xs _ lbf_well_behaved HS
                (lbf_readable _ _ _ _ _ _ HS)).
Qed.

Lemma upper_bound_readable h b e v comp xs :
  read_range h b e = Some xs ->
  upper_bound b e v comp h = Some (b + Z.of_nat (upper_index comp xs v), h).
Proof.
  intros HS. unfold upper_bound, bind, ret.
  by rewrite (scalar_returns detail.ubf h b e v comp xs _ ubf_well_behaved HS
                (ubf_readable _ _ _ _ _ _ HS)).
Qed.

Lemma binary_search_readable h b e v comp xs :
  read_range h b e = Some xs ->
  binary_search b e v comp h
  = Some (match xs !! lower_index comp xs v with
          | Some x => negb (comp v x)
          | None => false
          end, h).
Proof.
  intros HS. unfold binary_search.
  apply (scalar_returns detail.bsf h b e v comp xs _ bsf_well_behaved HS).
  by apply bsf_readable.
Qed.



(** C5.  [equal_range] returns the pair of the lower and the upper bound,
    each the iterator at the offset its functor finds, and is the scalar
    [lower_bound] followed by the scalar [upper_bound], two searches run on
    the same store. *)
Theorem equal_range_is_both_bounds h first last v comp xs :
  read_range h first last = Some xs ->
  exists lb ub : Z,
    detail.lbf h first last v comp = Some lb /\
    detail.ubf h first last v comp = Some ub /\
    lower_bound first last v comp h = Some (first + lb, h) /\
    upper_bound first last v comp h = Some (first + ub, h) /\
    equal_range first last v comp h = Some ((first + lb, first + ub), h) /\
    equal_range first last v comp
    = (l <-- lower_bound first last v comp ;;
       u <-- upper_bound first last v comp ;;
       ret (l, u)).
Proof.
  intros HS.
  exists (Z.of_nat (lower_index comp xs v)), (Z.of_nat (upper_index comp xs v)).
  split; [by apply lbf_readable|]. split; [by apply ubf_readable|].
  split; [by apply lower_bound_readable|].
  split; [by apply upper_bound_readable|]. split; [|done].
  unfold equal_range, bind at 1.
  rewrite (lower_bound_readable _ _ _ _ _ _ HS). unfold bind.
  by rewrite (upper_bound_readable _ _ _ _ _ _ HS).
Qed.

(** C6.  Empty sequence.  When [begin = end], [lbf] and [ubf] give offset 0
    and [bsf] gives false, for every query and comparator and whatever the
    store holds; the scalar entry points return [begin], [begin] and
    false. *)
Theorem empty_sequence h b v comp :
  detail.lbf h b b v comp = Some 0 /\
  detail.ubf h b b v comp = Some 0 /\
  detail.bsf h b b v comp = Some false /\
  lower_bound b b v comp h = Some (b, h) /\
  upper_bound b b v comp h = Some (b, h) /\
  binary_search b b v comp h = Some (false, h).
Proof.
  assert (HS : read_range h b b = Some []).
  { unfold read_range, distance. rewrite bool_decide_eq_true_2 by lia.
    by replace (b - b) with 0 by lia. }
  rewrite (lbf_readable _ _ _ _ _ _ HS), (ubf_readable _ _ _ _ _ _ HS),
    (bsf_readable _ _ _ _ _ _ HS), (lower_bound_readable _ _ _ _ _ _ HS),
    (upper_bound_readable _ _ _ _ _ _ HS), (binary_search_readable _ _ _ _ _ _ HS).
  unfold lower_index, upper_index. simpl. rewrite Z.add_0_r. by repeat split.
Qed.

End Scalar.

(** ** Membership, bounds and runs of equivalent elements *)

Section Membership.
Context {T : Type}.
Implicit Types (h : heap T) (comp : StrictWeakOrdering T) (xs : list T) (v : T).

(** C3.  On a sequence sorted with respect to a strict weak ordering,
    membership is true exactly when the lower and the upper bound differ,
    for the functors as for the scalar entry points. *)
Theorem membership_iff_bounds_differ h b e v comp xs :
  strict_weak_ordering comp ->
  read_range h b e = Some xs ->
  is_sorted comp xs = true ->
  exists (lb ub : Z) (m : bool),
    detail.lbf h b e v comp = Some lb /\
    detail.ubf h b e v comp = Some ub /\
    detail.bsf h b e v comp = Some m /\
    lower_bound b e v comp h = Some (b + lb, h) /\
    upper_bound b e v comp h = Some (b + ub, h) /\
    binary_search b e v comp h = Some (m, h) /\
    (m = true <-> lb <> ub) /\
    (m = true <-> b + lb <> b + ub).
Proof.
  intros Hswo HS _.
  exists (Z.of_nat (lower_index comp xs v)), (Z.of_nat (upper_index comp xs v)),
    (match xs !! lower_index comp xs v with
     | Some x => negb (comp v x)
     | None => false
     end).
  split; [by apply lbf_readable|]. split; [by apply ubf_readable|].
  split; [by apply bsf_readable|]. split; [by apply lower_bound_readable|].
  split; [by apply upper_bound_readable|].
  split; [by apply binary_search_readable|].
  pose proof (member_iff_bounds comp xs v (swo_asymmetric comp Hswo)) as Hm.
  split; rewrite Hm; lia.
Qed.

(** C4.  Membership is true exactly when the position [i] found by the
    lower bound is inside the sequence and the element there is ordered
    neither before nor after the query. *)
Theorem membership_by_lower_bound h b e v comp xs :
  read_range h b e = Some xs ->
  exists (i : nat) (m : bool),
    detail.lbf h b e v comp = Some (Z.of_nat i) /\
    detail.bsf h b e v comp = Some m /\
    (m = true <->
     (i < length xs)%nat /\
     exists x, xs !! i = Some x /\ dereference h (b + Z.of_nat i) = Some x /\
               comp x v = false /\ comp v x = false).
Proof.
  intros HS. destruct (read_range_Some _ _ _ _ HS) as (_ & _ & Hcells).
  exists (lower_index comp xs v),
    (match xs !! lower_index comp xs v with
     | Some x => negb (comp v x)
     | None => false
     end).
  split; [by apply lbf_readable|]. split; [by apply bsf_readable|].
  destruct (xs !! lower_index comp xs v) as [x|] eqn:Hx.
  - pose proof (first_index_stop _ _ _ Hx) as Hxv. simpl in Hxv.
    apply negb_true_iff in Hxv. split.
    + intros Hvx%negb_true_iff. split; [by eapply lookup_lt_Some|].
      exists x. unfold dereference. by rewrite (Hcells _ _ Hx).
    + intros (_ & y & [= <-] & _ & _ & Hvy). by apply negb_true_iff.
  - split; [done|]. by intros (_ & y & ? & _).
Qed.

Lemma run_positions comp v (pre run post : list T) (i : nat) x :
  Forall (fun y => equivalent comp y v = true) run ->
  Forall (fun y => equivalent comp y v = false) (pre ++ post) ->
  (pre ++ run ++ post) !! i = Some x ->
  equivalent comp x v = true <->
  (length pre <= i < length pre + length run)%nat.
Proof.
  intros Hrun Hout Hx. rewrite Forall_app in Hout. destruct Hout as [Hpre Hpost].
  rewrite !Forall_lookup in *.
  destruct (decide (i < length pre)%nat) as [Hlt|Hge].
  - rewrite lookup_app_l in Hx by done. rewrite (Hpre _ _ Hx). split; [done|lia].
  - rewrite lookup_app_r in Hx by lia.
    destruct (decide (i - length pre < length run)%nat) as [Hlt|Hge'].
    + rewrite lookup_app_l in Hx by done. rewrite (Hrun _ _ Hx). split; [lia|done].
    + rewrite lookup_app_r in Hx by lia. rewrite (Hpost _ _ Hx). split; [done|lia].
Qed.

(** Two intervals of positions of a list with the same members. *)
Lemma same_interval (n L U p k : nat) :
  (L <= U <= n)%nat -> (p + k <= n)%nat ->
  (forall i : nat, (i < n)%nat -> (L <= i < U)%nat <-> (p <= i < p + k)%nat) ->
  (U - L = k)%nat /\ ((0 < k)%nat -> L = p /\ U = (p + k)%nat).
Proof.
  intros HLU Hpk Hiff. destruct (decide (k = 0)%nat) as [->|Hk].
  - split; [|lia]. destruct (decide (L < U)%nat) as [Hlt|]; [|lia].
    pose proof (Hiff L ltac:(lia)). lia.
  - pose proof (Hiff p ltac:(lia)) as H1.
    pose proof (Hiff (p + k - 1)%nat ltac:(lia)) as H2.
    pose proof (Hiff L ltac:(lia)) as H3.
    pose proof (Hiff (U - 1)%nat ltac:(lia)) as H4.
    lia.
Qed.

(** C7.  Duplicate run.  In a sequence sorted with respect to a strict weak
    ordering that is [pre], then a run of [k] elements equivalent to [v],
    then [post], with no element of [pre] or [post] equivalent to [v], the
    upper bound minus the lower bound is [k]; and when the run is not empty
    the lower bound is its first position and the upper bound the position
    just past its last element. *)
Theorem duplicate_run h b e v comp (pre run post : list T) :
  strict_weak_ordering comp ->
  read_range h b e = Some (pre ++ run ++ post) ->
  is_sorted comp (pre ++ run ++ post) = true ->
  Forall (fun x => equivalent comp x v = true) run ->
  Forall (fun x => equivalent comp x v = false) (pre ++ post) ->
  exists lb ub : Z,
    detail.lbf h b e v comp = Some lb /\
    detail.ubf h b e v comp = Some ub /\
    ub - lb = Z.of_nat (length run) /\
    (run <> [] ->
     lb = Z.of_nat (length pre) /\
     ub = Z.of_nat (length pre) + Z.of_nat (length run)).
Proof.
  intros Hswo HS Hsorted Hrun Hout.
  set (l := pre ++ run ++ post) in *.
  exists (Z.of_nat (lower_index comp l v)), (Z.of_nat (upper_index comp l v)).
  split; [by apply lbf_readable|]. split; [by apply ubf_readable|].
  destruct (same_interval (length l) (lower_index comp l v) (upper_index comp l v)
              (length pre) (length run)) as [Hdiff Hpos].
  - split; [apply lower_le_upper, swo_asymmetric, Hswo|apply upper_index_le].
  - subst l. rewrite !length_app. lia.
  - intros i Hi. destruct (lookup_lt_is_Some_2 l i Hi) as [x Hx].
    rewrite <- (equivalent_iff_between comp l v i x Hswo Hsorted Hx).
    exact (run_positions comp v pre run post i x Hrun Hout Hx).
  - pose proof (lower_le_upper comp l v (swo_asymmetric comp Hswo)).
    split; [lia|]. intros Hne.
    destruct Hpos as [-> ->]; [|lia].
    destruct run; [done|simpl; lia].
Qed.

End Membership.

(** ** Default comparator *)

(** C8.  Every entry point taking no comparator is the entry point of the
    same name with the comparator, called with [less]. *)
Theorem default_comparator_is_less {T} `{Less T}
    (begin end_ values_begin values_end output : iter) (value : T) :
  lower_bound_default begin end_ value = lower_bound begin end_ value less /\
  upper_bound_default begin end_ value = upper_bound begin end_ value less /\
  binary_search_default begin end_ value = binary_search begin end_ value less /\
  lower_bound_vector_default begin end_ values_begin values_end output
    = lower_bound_vector begin end_ values_begin values_end output (less (T:=T)) /\
  upper_bound_vector_default begin end_ values_begin values_end output
    = upper_bound_vector begin end_ values_begin values_end output (less (T:=T)) /\
  binary_search_vector_default begin end_ values_begin values_end output
    = binary_search_vector begin end_ values_begin values_end output (less (T:=T)) /\
  equal_range_default begin end_ value = equal_range begin end_ value less.
Proof. by repeat split. Qed.


(** ** The scenarios of the specification *)

Ltac evaluate := vm_compute; reflexivity.

(** A batch call on concrete addresses: the ranges are read by evaluation,
    the cells of the output are looked up one by one. *)
Ltac concrete_batch_call :=
  split;
  [ evaluate
  | evaluate
  | let a := fresh "a" in let Ha := fresh "Ha" in
    intros a Ha; unfold distance in Ha;
    assert (a = 300 \/ a = 301 \/ a = 302) as [-> | [-> | ->] ] by lia;
    vm_compute; eexists; reflexivity
  | intros ?; unfold distance; lia
  | intros ?; unfold distance; lia ].

Ltac concrete_ordering := split; intros; lia.

Example scenario_3 :
  fst <$> lower_bound 100 106 3 Z.ltb S6 = Some 101 /\
  fst <$> upper_bound 100 106 3 Z.ltb S6 = Some 104 /\
  fst <$> binary_search_default 100 106 3 S6 = Some true /\
  fst <$> equal_range 100 106 3 Z.ltb S6 = Some (101, 104).
Proof. repeat split; evaluate. Qed.

Example scenario_4 :
  fst <$> lower_bound 100 106 4 Z.ltb S6 = Some 104 /\
  fst <$> upper_bound 100 106 4 Z.ltb S6 = Some 104 /\
  fst <$> binary_search 100 106 4 Z.ltb S6 = Some false /\
  fst <$> equal_range_default 100 106 4 S6 = Some (104, 104).
Proof. repeat split; evaluate. Qed.

Example scenario_0_and_8 :
  fst <$> lower_bound 100 106 0 Z.ltb S6 = Some 100 /\
  fst <$> upper_bound 100 106 0 Z.ltb S6 = Some 100 /\
  fst <$> binary_search 100 106 0 Z.ltb S6 = Some false /\
  fst <$> lower_bound 100 106 8 Z.ltb S6 = Some 106 /\
  fst <$> upper_bound 100 106 8 Z.ltb S6 = Some 106 /\
  fst <$> binary_search 100 106 8 Z.ltb S6 = Some false.
Proof. repeat split; evaluate. Qed.

Example scenario_batch :
  (h' ← snd <$> lower_bound_vector 100 106 200 203 300 Z.ltb S6_batch;
   read_diffs h' 300 3) = Some [0; 1; 6] /\
  (h' ← snd <$> upper_bound_vector 100 106 200 203 300 Z.ltb S6_batch;
   read_diffs h' 300 3) = Some [0; 4; 6] /\
  (h' ← snd <$> binary_search_vector_default 100 106 200 203 300 S6_batch;
   mapM (load (R:=bool) h') (addrs 300 3)) = Some [false; true; false].
Proof. repeat split; evaluate. Qed.

Example scenario_empty :
  fst <$> lower_bound 100 100 5 Z.ltb S6 = Some 100 /\
  fst <$> upper_bound 100 100 5 Z.ltb S6 = Some 100 /\
  fst <$> binary_search 100 100 5 Z.ltb S6 = Some false.
Proof. repeat split; evaluate. Qed.

(** The scalar entry points give back the store they were given. *)
Example scenario_store_restored :
  snd <$> lower_bound 100 106 3 Z.ltb S6 = Some S6 /\
  snd <$> binary_search 100 106 3 Z.ltb S6 = Some S6.
Proof. split; evaluate. Qed.

(** An output buffer laid over the sequence: the first write replaces the
    first element by an offset, and the next search cannot read it. *)
Example output_over_sequence :
  lower_bound_vector 100 106 200 203 100 Z.ltb S6_batch = None.
Proof. evaluate. Qed.

(** ** The theorems at the scenarios *)

Lemma batch_dispatcher_contract_witness :
  batch_contract detail.lbf S6_batch 100 106 200 203 300 Z.ltb [0; 3; 8] /\
  batch_contract detail.ubf S6_batch 100 106 200 203 300 Z.ltb [0; 3; 8] /\
  batch_contract detail.bsf S6_batch 100 106 200 203 300 Z.ltb [0; 3; 8].
Proof.
  apply (batch_dispatcher_contract S6_batch 100 106 200 203 300 Z.ltb
           [1; 3; 3; 3; 5; 7] [0; 3; 8]).
  concrete_batch_call.
Defined.

Lemma batch_writes_only_output_witness :
  (batch_frame (lower_bound_vector 100 106 200 203 300 Z.ltb) S6_batch
     100 106 200 203 300 [1; 3; 3; 3; 5; 7] [0; 3; 8] /\
   batch_frame (upper_bound_vector 100 106 200 203 300 Z.ltb) S6_batch
     100 106 200 203 300 [1; 3; 3; 3; 5; 7] [0; 3; 8] /\
   batch_frame (binary_search_vector 100 106 200 203 300 Z.ltb) S6_batch
     100 106 200 203 300 [1; 3; 3; 3; 5; 7] [0; 3; 8]) /\
  (200 = 203 ->
   lower_bound_vector 100 106 200 203 300 Z.ltb S6_batch = Some (300, S6_batch) /\
   upper_bound_vector 100 106 200 203 300 Z.ltb S6_batch = Some (300, S6_batch) /\
   binary_search_vector 100 106 200 203 300 Z.ltb S6_batch = Some (300, S6_batch)).
Proof.
  apply (batch_writes_only_output S6_batch 100 106 200 203 300 Z.ltb
           [1; 3; 3; 3; 5; 7] [0; 3; 8]).
  concrete_batch_call.
Defined.

Lemma batch_returns_output_end_witness :
  (fst <$> lower_bound_vector 100 106 200 203 300 Z.ltb S6_batch
     = Some (300 + Z.of_nat (length [0; 3; 8])) /\
   fst <$> upper_bound_vector 100 106 200 203 300 Z.ltb S6_batch
     = Some (300 + Z.of_nat (length [0; 3; 8])) /\
   fst <$> binary_search_vector 100 106 200 203 300 Z.ltb S6_batch
     = Some (300 + Z.of_nat (length [0; 3; 8]))) /\
  ([0; 3; 8] = [] ->
   fst <$> lower_bound_vector 100 106 200 203 300 Z.ltb S6_batch = Some 300 /\
   fst <$> upper_bound_vector 100 106 200 203 300 Z.ltb S6_batch = Some 300 /\
   fst <$> binary_search_vector 100 106 200 203 300 Z.ltb S6_batch = Some 300).
Proof.
  apply (batch_returns_output_end S6_batch 100 106 200 203 300 Z.ltb
           [1; 3; 3; 3; 5; 7] [0; 3; 8]).
  concrete_batch_call.
Defined.


Lemma equal_range_is_both_bounds_witness :
  exists lb ub : Z,
    detail.lbf S6 100 106 3 Z.ltb = Some lb /\
    detail.ubf S6 100 106 3 Z.ltb = Some ub /\
    lower_bound 100 106 3 Z.ltb S6 = Some (100 + lb, S6) /\
    upper_bound 100 106 3 Z.ltb S6 = Some (100 + ub, S6) /\
    equal_range 100 106 3 Z.ltb S6 = Some ((100 + lb, 100 + ub), S6) /\
    equal_range 100 106 3 Z.ltb
    = (l <-- lower_bound 100 106 3 Z.ltb ;;
       u <-- upper_bound 100 106 3 Z.ltb ;;
       ret (l, u)).
Proof.
  apply (equal_range_is_both_bounds S6 100 106 3 Z.ltb [1; 3; 3; 3; 5; 7]).
  evaluate.
Defined.

Lemma membership_iff_bounds_differ_witness :
  exists (lb ub : Z) (m : bool),
    detail.lbf S6 100 106 3 Z.ltb = Some lb /\
    detail.ubf S6 100 106 3 Z.ltb = Some ub /\
    detail.bsf S6 100 106 3 Z.ltb = Some m /\
    lower_bound 100 106 3 Z.ltb S6 = Some (100 + lb, S6) /\
    upper_bound 100 106 3 Z.ltb S6 = Some (100 + ub, S6) /\
    binary_search 100 106 3 Z.ltb S6 = Some (m, S6) /\
    (m = true <-> lb <> ub) /\
    (m = true <-> 100 + lb <> 100 + ub).
Proof.
  apply (membership_iff_bounds_differ S6 100 106 3 Z.ltb [1; 3; 3; 3; 5; 7]).
  - concrete_ordering.
  - evaluate.
  - evaluate.
Defined.

Lemma membership_by_lower_bound_witness :
  exists (i : nat) (m : bool),
    detail.lbf S6 100 106 3 Z.ltb = Some (Z.of_nat i) /\
    detail.bsf S6 100 106 3 Z.ltb = Some m /\
    (m = true <->
     (i < length [1; 3; 3; 3; 5; 7])%nat /\
     exists x, [1; 3; 3; 3; 5; 7] !! i = Some x /\
               dereference S6 (100 + Z.of_nat i) = Some x /\
               Z.ltb x 3 = false /\ Z.ltb 3 x = false).
Proof.
  apply (membership_by_lower_bound S6 100 106 3 Z.ltb [1; 3; 3; 3; 5; 7]).
  evaluate.
Defined.

Lemma duplicate_run_witness :
  exists lb ub : Z,
    detail.lbf S6 100 106 3 Z.ltb = Some lb /\
    detail.ubf S6 100 106 3 Z.ltb = Some ub /\
    ub - lb = Z.of_nat (length [3; 3; 3]) /\
    ([3; 3; 3] <> [] ->
     lb = Z.of_nat (length [1]) /\
     ub = Z.of_nat (length [1]) + Z.of_nat (length [3; 3; 3])).
Proof.
  apply (duplicate_run S6 100 106 3 Z.ltb [1] [3; 3; 3] [5; 7]).
  - concrete_ordering.
  - evaluate.
  - evaluate.
  - repeat constructor.
  - repeat constructor.
Defined.


(** * Further properties of the dispatcher and of the bridge *)

Section Repeating.
Context {T R : Type} `{OutputType T R}.
Implicit Types (h : heap T) (comp : StrictWeakOrdering T)
  (func : BinarySearchFunction T R).

Lemma results_unique func h b e comp (qs : list T) (res res' : list R) :
  Forall2 (fun q r => func h b e q comp = Some r) qs res ->
  Forall2 (fun q r => func h b e q comp = Some r) qs res' ->
  res = res'.
Proof.
  intros H1 H2. apply mapM_Some_2 in H1, H2. congruence.
Qed.

(** After a batch call the same call can be made again: it finds the batch
    as it was, apart from the output, and writes the same results. *)
Lemma dispatch_again func h b e vb ve out comp (xs qs : list T) :
  well_behaved func -> batch_call h b e vb ve out xs qs ->
  exists it h',
    detail.binary_search b e vb ve out comp func h = Some (it, h') /\
    batch_call h' b e vb ve out xs qs /\
    dom h' = dom h /\
    detail.binary_search b e vb ve out comp func h' = Some (it, h').
Proof.
  intros Hwb Hcall. pose proof Hcall as [HS HQ Hal Hd1 Hd2].
  destruct (dispatch func h b e vb ve out comp xs qs Hwb HS HQ Hal Hd1 Hd2)
    as (res & h' & Hrun & Hres & Hout & Hframe & _).
  destruct (read_range_Some _ _ _ _ HS) as (Hle & _ & _).
  destruct (read_range_Some _ _ _ _ HQ) as (_ & Hlen & _).
  pose proof (Forall2_length _ _ _ Hres) as Hlr.
  assert (Hcell : forall a, out <= a < out + distance vb ve ->
            exists (k : nat) r, a = out + Z.of_nat k /\ res !! k = Some r).
  { intros a Ha. unfold distance in Ha.
    destruct (lookup_lt_is_Some_2 res (Z.to_nat (a - out))) as [r Hr]; [lia|].
    exists (Z.to_nat (a - out)), r. split; [lia|done]. }
  assert (Hs1 : same_on b e h h').
  { intros a Ha. symmetry. apply Hframe. intros Ho. by apply (Hd1 a). }
  assert (Hcall' : batch_call h' b e vb ve out xs qs).
  { split; try done.
    - by rewrite <- (read_range_same h h').
    - rewrite <- HQ. symmetry. apply read_range_same. intros a Ha. symmetry.
      apply Hframe. intros Ho. by apply (Hd2 a).
    - intros a Ha. destruct (Hcell a Ha) as (k & r & -> & Hr).
      rewrite (Hout _ _ Hr). by eexists. }
  exists (out + distance vb ve), h'. split; [done|]. split; [done|]. split.
  - apply set_eq. intros a. rewrite !elem_of_dom.
    destruct (decide (out <= a < out + distance vb ve)) as [Ha|Ha].
    + destruct (Hcell a Ha) as (k & r & -> & Hr). rewrite (Hout _ _ Hr).
      split; [intros _; apply Hal; lia|by eexists].
    + by rewrite Hframe.
  - destruct Hcall' as [HS' HQ' Hal' _ _].
    destruct (dispatch func h' b e vb ve out comp xs qs Hwb HS' HQ' Hal' Hd1 Hd2)
      as (res' & h'' & Hrun' & Hres' & Hout' & Hframe' & _).
    assert (res' = res) as ->.
    { apply (results_unique func h b e comp qs); [|done].
      eapply Forall2_impl; [exact Hres'|]. intros q r Hq. simpl in *.
      by rewrite (func_local _ Hwb h h'). }
    rewrite Hrun'. do 2 f_equal. apply map_eq. intros a.
    destruct (decide (out <= a < out + distance vb ve)) as [Ha|Ha].
    + destruct (Hcell a Ha) as (k & r & -> & Hr).
      by rewrite (Hout _ _ Hr), (Hout' _ _ Hr).
    + by apply Hframe'.
Qed.

Lemma for_each_in_writes_own (f : iter * iter -> M T unit) first
    (w : nat -> val T) (I : list nat -> heap T -> Prop) order h :
  NoDup order -> I order h ->
  (forall (k : nat) order' h', k ∉ order' -> I (k :: order') h' ->
     f (zip_at first k) h' = Some (tt, <[snd first + Z.of_nat k := w k]> h') /\
     I order' (<[snd first + Z.of_nat k := w k]> h')) ->
  for_each_in order first f h
  = Some (tt, foldl (fun h' (k : nat) => <[snd first + Z.of_nat k := w k]> h')
                    h order).
Proof.
  intros Hnd HI Hstep. revert h HI.
  induction order as [|k order IH]; intros h HI; [done|].
  apply NoDup_cons in Hnd as [Hk Hnd].
  destruct (Hstep k order h Hk HI) as [Hf HI'].
  cbn [for_each_in foldl]. unfold bind at 1. rewrite Hf. by apply IH.
Qed.

(** The dispatcher with the queries for output buffer: each query is read
    before its cell receives the result. *)
Lemma dispatch_in_place func h b e vb ve comp (xs qs : list T) :
  well_behaved func ->
  read_range h b e = Some xs ->
  read_range h vb ve = Some qs ->
  disjoint vb ve b e ->
  exists h',
    detail.binary_search b e vb ve vb comp func h = Some (ve, h') /\
    (forall (i : nat) q, qs !! i = Some q ->
       exists r, func h b e q comp = Some r /\
                 load h' (vb + Z.of_nat i) = Some r) /\
    (forall a, ~ (vb <= a < ve) -> h' !! a = h !! a) /\
    read_range h' b e = Some xs.
Proof.
  intros Hwb HS HQ Hd.
  destruct (results_exist func h b e comp qs xs Hwb HS) as [res Hres].
  destruct (read_range_Some _ _ _ _ HS) as (Hle & _ & _).
  destruct (read_range_Some _ _ _ _ HQ) as (Hvle & Hlen & HQl).
  pose proof (Forall2_length _ _ _ Hres) as Hlr.
  set (h' := foldl (fun h' (k : nat) => <[vb + Z.of_nat k := written res k]> h')
                   h (seq 0 (length qs))).
  assert (Hrun : for_each_in (seq 0 (length qs)) (vb, vb)
            (detail.call (detail.Build_binary_search_functor b e comp func)) h
            = Some (tt, h')).
  { apply (for_each_in_writes_own _ (vb, vb) (written res)
             (fun order h1 =>
                (forall k : nat, k ∈ order -> (k < length qs)%nat) /\
                same_on b e h h1 /\
                forall k : nat, k ∈ order ->
                  h1 !! (vb + Z.of_nat k) = h !! (vb + Z.of_nat k))).
    - apply NoDup_seq.
    - split; [|done]. intros k Hk. apply elem_of_seq in Hk. lia.
    - intros k order' h1 Hk (Hlt & Hs & Hq). simpl.
      pose proof (Hlt k ltac:(by left)) as Hkn.
      destruct (lookup_lt_is_Some_2 qs k Hkn) as [q Hqk].
      destruct (Forall2_lookup_l _ _ _ _ _ Hres Hqk) as (r & Hr & Hfr).
      pose proof (HQl _ _ Hqk) as Hcell.
      rewrite <- (Hq k) in Hcell by (by left).
      split.
      + unfold written. rewrite Hr.
        apply (call_writes func h h1 b e vb vb comp k q r); done.
      + split; [intros j Hj; apply Hlt; by right|]. split.
        * intros a Ha. rewrite lookup_insert_ne; [by apply Hs|].
          intros <-. apply (Hd (vb + Z.of_nat k)); lia.
        * intros j Hj. rewrite lookup_insert_ne; [apply Hq; by right|].
          intros Heq. assert (k = j) as -> by lia. done. }
  assert (Hframe : forall a, ~ (vb <= a < ve) -> h' !! a = h !! a).
  { intros a Ha. subst h'. apply lookup_writes_other.
    intros k Hk ->. apply elem_of_seq in Hk. lia. }
  exists h'. split; [|split; [|split; [done|]]].
  - unfold detail.binary_search, for_each, make_zip_iterator, bind, ret, distance.
    simpl. replace (Z.to_nat (ve - vb)) with (length qs) by lia.
    rewrite Hrun. do 2 f_equal. lia.
  - intros i q Hq. destruct (Forall2_lookup_l _ _ _ _ _ Hres Hq) as (r & Hr & Hfr).
    exists r. split; [done|]. unfold load. subst h'.
    rewrite lookup_writes_at.
    + unfold written. rewrite Hr. apply of_to_val.
    + apply elem_of_seq. apply lookup_lt_Some in Hq. lia.
  - rewrite <- HS. symmetry. apply read_range_same. intros a Ha. symmetry.
    apply Hframe. intros Hv. by apply (Hd a).
Qed.

End Repeating.

Section Parts.
Context {T R : Type} `{OutputType T R}.
Implicit Types (h : heap T) (comp : StrictWeakOrdering T)
  (func : BinarySearchFunction T R).

Lemma read_range_intro h first last (l : list T) :
  first <= last -> Z.of_nat (length l) = last - first ->
  (forall (k : nat) x, l !! k = Some x ->
     h !! (first + Z.of_nat k) = Some (VElem x)) ->
  read_range h first last = Some l.
Proof.
  intros Hle Hlen Hcells. unfold read_range, distance.
  rewrite bool_decide_eq_true_2 by done. apply mapM_Some_2.
  apply Forall2_same_length_lookup_2.
  - rewrite length_addrs. lia.
  - intros k a x Ha Hx. pose proof (lookup_lt_Some _ _ _ Hx) as Hk.
    rewrite lookup_addrs in Ha by lia. injection Ha as <-.
    unfold dereference. by rewrite (Hcells _ _ Hx).
Qed.

Lemma read_range_parts h first mid last (l : list T) :
  read_range h first last = Some l -> first <= mid <= last ->
  read_range h first mid = Some (take (Z.to_nat (mid - first)) l) /\
  read_range h mid last = Some (drop (Z.to_nat (mid - first)) l).
Proof.
  intros Hr Hm. destruct (read_range_Some _ _ _ _ Hr) as (_ & Hlen & Hcells).
  split; apply read_range_intro; try lia.
  - rewrite length_take. lia.
  - intros k x Hk. apply lookup_take_Some in Hk as [Hk _]. by apply Hcells.
  - rewrite length_drop. lia.
  - intros k x Hk. rewrite lookup_drop in Hk. apply Hcells in Hk.
    by replace (mid + Z.of_nat k)
      with (first + Z.of_nat (Z.to_nat (mid - first) + k)) by lia.
Qed.

(** A well-formed batch call made in two parts: both parts are well-formed
    batch calls, the second on the store the first left and with the
    iterator it returned for output, and they end in the store of the one
    call.  The proof goes through the cells the calls leave, not through the
    order in which [for_each] visits them. *)
Lemma dispatch_in_parts func h b e vb vm ve out comp (xs qs : list T) :
  well_behaved func -> batch_call h b e vb ve out xs qs -> vb <= vm <= ve ->
  exists h1 h',
    batch_call h b e vb vm out xs (take (Z.to_nat (vm - vb)) qs) /\
    detail.binary_search b e vb vm out comp func h
      = Some (out + distance vb vm, h1) /\
    batch_call h1 b e vm ve (out + distance vb vm) xs
               (drop (Z.to_nat (vm - vb)) qs) /\
    detail.binary_search b e vm ve (out + distance vb vm) comp func h1
      = Some (out + distance vb ve, h') /\
    detail.binary_search b e vb ve out comp func h
      = Some (out + distance vb ve, h').
Proof.
  intros Hwb Hcall Hm. pose proof Hcall as [HS HQ Hal Hd1 Hd2].
  set (n := Z.to_nat (vm - vb)).
  destruct (read_range_Some _ _ _ _ HS) as (Hle & _ & _).
  destruct (read_range_Some _ _ _ _ HQ) as (_ & Hlen & _).
  destruct (read_range_parts h vb vm ve qs HQ Hm) as [HQ1 HQ2]. fold n in HQ1, HQ2.
  unfold distance in *.
  (* the one call *)
  destruct (dispatch func h b e vb ve out comp xs qs Hwb HS HQ Hal Hd1 Hd2)
    as (res & h' & Hrun & Hres & Hout & Hframe & _).
  (* the first part *)
  assert (Hcall1 : batch_call h b e vb vm out xs (take n qs)).
  { split; try done; unfold distance.
    - intros a Ha. apply Hal. lia.
    - intros a Ha Hb. apply (Hd1 a); lia.
    - intros a Ha Hb. apply (Hd2 a); lia. }
  pose proof Hcall1 as [_ _ Hal1 Hd11 Hd12].
  destruct (dispatch func h b e vb vm out comp xs (take n qs) Hwb HS HQ1
              Hal1 Hd11 Hd12)
    as (res1 & h1 & Hrun1 & Hres1 & Hout1 & Hframe1 & _).
  unfold distance in *.
  assert (Hs1 : same_on b e h h1).
  { intros a Ha. symmetry. apply Hframe1. intros Ho. apply (Hd1 a); lia. }
  (* the second part *)
  assert (HS2 : read_range h1 b e = Some xs) by by rewrite <- (read_range_same h h1).
  assert (HQ2' : read_range h1 vm ve = Some (drop n qs)).
  { rewrite <- HQ2. symmetry. apply read_range_same. intros a Ha. symmetry.
    apply Hframe1. intros Ho. apply (Hd2 a); lia. }
  assert (Hal2 : allocated h1 (out + (vm - vb)) (out + (vm - vb) + distance vm ve)).
  { intros a Ha. unfold distance in Ha. rewrite Hframe1 by lia. apply Hal. lia. }
  assert (Hd21 : disjoint (out + (vm - vb)) (out + (vm - vb) + distance vm ve) b e).
  { intros a Ha Hb. unfold distance in Ha. apply (Hd1 a); lia. }
  assert (Hd22 : disjoint (out + (vm - vb)) (out + (vm - vb) + distance vm ve) vm ve).
  { intros a Ha Hb. unfold distance in Ha. apply (Hd2 a); lia. }
  destruct (dispatch func h1 b e vm ve (out + (vm - vb)) comp xs (drop n qs) Hwb
              HS2 HQ2' Hal2 Hd21 Hd22)
    as (res2 & h2 & Hrun2 & Hres2 & Hout2 & Hframe2 & _).
  unfold distance in *.
  (* the results of the parts are those of the one call *)
  assert (Hr1 : res1 = take n res).
  { apply (results_unique func h b e comp (take n qs)); [done|].
    by apply Forall2_take. }
  assert (Hr2 : res2 = drop n res).
  { apply (results_unique func h b e comp (drop n qs)); [|by apply Forall2_drop].
    eapply Forall2_impl; [exact Hres2|]. intros q r Hq. simpl in *.
    by rewrite (func_local _ Hwb h h1). }
  pose proof (Forall2_length _ _ _ Hres) as Hlr.
  assert (h2 = h') as ->.
  { apply map_eq. intros a.
    destruct (decide (out <= a < out + (vm - vb))) as [Ha|Ha1].
    - rewrite Hframe2 by lia.
      destruct (lookup_lt_is_Some_2 res (Z.to_nat (a - out))) as [r Hr]; [lia|].
      replace a with (out + Z.of_nat (Z.to_nat (a - out))) by lia.
      rewrite (Hout _ _ Hr). apply Hout1. rewrite Hr1.
      rewrite lookup_take_lt by lia. done.
    - destruct (decide (out + (vm - vb) <= a < out + (ve - vb))) as [Ha|Ha2].
      + destruct (lookup_lt_is_Some_2 res (Z.to_nat (a - out))) as [r Hr]; [lia|].
        replace a with (out + Z.of_nat (Z.to_nat (a - out))) at 2 by lia.
        rewrite (Hout _ _ Hr).
        replace a with (out + (vm - vb) + Z.of_nat (Z.to_nat (a - out) - n)) by lia.
        apply Hout2. rewrite Hr2, lookup_drop.
        by replace (n + (Z.to_nat (a - out) - n))%nat with (Z.to_nat (a - out)) by lia.
      + rewrite Hframe2 by lia. rewrite Hframe1 by lia. rewrite Hframe by lia. done. }
  exists h1, h'. split; [by split|]. split; [done|]. split; [by split|].
  split; [|done]. rewrite Hrun2. do 2 f_equal. lia.
Qed.

End Parts.

Section BatchExtras.
Context {T : Type}.
Implicit Types (h : heap T) (comp : StrictWeakOrdering T) (xs qs : list T).

(** X1.  A batch call is as many scalar calls: entry [i] of the output of
    the batch [lower_bound], [upper_bound] and [binary_search] is the offset
    from [b] of the iterator, respectively the boolean, that the scalar
    entry point returns for query [i] on the same store. *)
Theorem batch_is_scalar_calls h b e vb ve out comp xs qs :
  batch_call h b e vb ve out xs qs ->
  exists h1 h2 h3,
    snd <$> lower_bound_vector b e vb ve out comp h = Some h1 /\
    snd <$> upper_bound_vector b e vb ve out comp h = Some h2 /\
    snd <$> binary_search_vector b e vb ve out comp h = Some h3 /\
    forall (i : nat) q, qs !! i = Some q ->
      exists (lb ub : Z) (m : bool),
        load h1 (out + Z.of_nat i) = Some lb /\
        lower_bound b e q comp h = Some (b + lb, h) /\
        load h2 (out + Z.of_nat i) = Some ub /\
        upper_bound b e q comp h = Some (b + ub, h) /\
        load h3 (out + Z.of_nat i) = Some m /\
        binary_search b e q comp h = Some (m, h).
Proof.
  intros Hcall. pose proof (batch_sequence _ _ _ _ _ _ _ _ Hcall) as HS.
  destruct (dispatch_contract detail.lbf h b e vb ve out comp xs qs
              lbf_well_behaved Hcall) as (h1 & Hrun1 & Hout1 & _).
  destruct (dispatch_contract detail.ubf h b e vb ve out comp xs qs
              ubf_well_behaved Hcall) as (h2 & Hrun2 & Hout2 & _).
  destruct (dispatch_contract detail.bsf h b e vb ve out comp xs qs
              bsf_well_behaved Hcall) as (h3 & Hrun3 & Hout3 & _).
  exists h1, h2, h3.
  unfold lower_bound_vector, upper_bound_vector, binary_search_vector.
  rewrite Hrun1, Hrun2, Hrun3. repeat (split; [done|]).
  intros i q Hq.
  destruct (Hout1 i q Hq) as (lb & Hlb & Hload1).
  destruct (Hout2 i q Hq) as (ub & Hub & Hload2).
  destruct (Hout3 i q Hq) as (m & Hm & Hload3).
  exists lb, ub, m. repeat (split; [done|]).
  rewrite (lbf_readable _ _ _ _ _ _ HS) in Hlb. injection Hlb as <-.
  rewrite (ubf_readable _ _ _ _ _ _ HS) in Hub. injection Hub as <-.
  rewrite (bsf_readable _ _ _ _ _ _ HS) in Hm. injection Hm as <-.
  split; [by apply lower_bound_readable|]. split; [done|].
  split; [by apply upper_bound_readable|]. split; [done|].
  by apply binary_search_readable.
Qed.

(** X2.  A well-formed batch call can be made in two parts: on the queries
    up to [vm], then on the rest with the iterator the first part returned
    for output.  Both parts are well-formed batch calls, and they end with
    the store and the iterator of the one call. *)
Theorem batch_in_two_parts h b e vb vm ve out comp xs qs :
  batch_call h b e vb ve out xs qs ->
  vb <= vm <= ve ->
  (exists mid h1 h',
     batch_call h b e vb vm out xs (take (Z.to_nat (vm - vb)) qs) /\
     lower_bound_vector b e vb vm out comp h = Some (mid, h1) /\
     batch_call h1 b e vm ve mid xs (drop (Z.to_nat (vm - vb)) qs) /\
     lower_bound_vector b e vm ve mid comp h1 = Some (out + distance vb ve, h') /\
     lower_bound_vector b e vb ve out comp h = Some (out + distance vb ve, h')) /\
  (exists mid h1 h',
     batch_call h b e vb vm out xs (take (Z.to_nat (vm - vb)) qs) /\
     upper_bound_vector b e vb vm out comp h = Some (mid, h1) /\
     batch_call h1 b e vm ve mid xs (drop (Z.to_nat (vm - vb)) qs) /\
     upper_bound_vector b e vm ve mid comp h1 = Some (out + distance vb ve, h') /\
     upper_bound_vector b e vb ve out comp h = Some (out + distance vb ve, h')) /\
  (exists mid h1 h',
     batch_call h b e vb vm out xs (take (Z.to_nat (vm - vb)) qs) /\
     binary_search_vector b e vb vm out comp h = Some (mid, h1) /\
     batch_call h1 b e vm ve mid xs (drop (Z.to_nat (vm - vb)) qs) /\
     binary_search_vector b e vm ve mid comp h1 = Some (out + distance vb ve, h') /\
     binary_search_vector b e vb ve out comp h = Some (out + distance vb ve, h')).
Proof.
  intros Hcall Hm.
  destruct (dispatch_in_parts detail.lbf h b e vb vm ve out comp xs qs
              lbf_well_behaved Hcall Hm) as (h1 & h1' & ?).
  destruct (dispatch_in_parts detail.ubf h b e vb vm ve out comp xs qs
              ubf_well_behaved Hcall Hm) as (h2 & h2' & ?).
  destruct (dispatch_in_parts detail.bsf h b e vb vm ve out comp xs qs
              bsf_well_behaved Hcall Hm) as (h3 & h3' & ?).
  split; [by exists (out + distance vb vm), h1, h1'|].
  split; [by exists (out + distance vb vm), h2, h2'|].
  by exists (out + distance vb vm), h3, h3'.
Qed.

(** X3.  A batch call made again on the store it left returns the same
    iterator and leaves that store as it is. *)
Theorem batch_call_repeatable h b e vb ve out comp xs qs :
  batch_call h b e vb ve out xs qs ->
  (exists it h', lower_bound_vector b e vb ve out comp h = Some (it, h') /\
                 lower_bound_vector b e vb ve out comp h' = Some (it, h')) /\
  (exists it h', upper_bound_vector b e vb ve out comp h = Some (it, h') /\
                 upper_bound_vector b e vb ve out comp h' = Some (it, h')) /\
  (exists it h', binary_search_vector b e vb ve out comp h = Some (it, h') /\
                 binary_search_vector b e vb ve out comp h' = Some (it, h')).
Proof.
  intros Hcall.
  destruct (dispatch_again detail.lbf h b e vb ve out comp xs qs
              lbf_well_behaved Hcall) as (it1 & h1 & ? & _ & _ & ?).
  destruct (dispatch_again detail.ubf h b e vb ve out comp xs qs
              ubf_well_behaved Hcall) as (it2 & h2 & ? & _ & _ & ?).
  destruct (dispatch_again detail.bsf h b e vb ve out comp xs qs
              bsf_well_behaved Hcall) as (it3 & h3 & ? & _ & _ & ?).
  split; [by exists it1, h1|]. split; [by exists it2, h2|]. by exists it3, h3.
Qed.

(** X4.  A batch call neither adds a cell to the store nor removes one, and
    leaves a store on which the same batch call, or another operation on the
    same buffers, is set up as before. *)
Theorem batch_keeps_cells h b e vb ve out comp xs qs :
  batch_call h b e vb ve out xs qs ->
  (exists it h', lower_bound_vector b e vb ve out comp h = Some (it, h') /\
                 dom h' = dom h /\ batch_call h' b e vb ve out xs qs) /\
  (exists it h', upper_bound_vector b e vb ve out comp h = Some (it, h') /\
                 dom h' = dom h /\ batch_call h' b e vb ve out xs qs) /\
  (exists it h', binary_search_vector b e vb ve out comp h = Some (it, h') /\
                 dom h' = dom h /\ batch_call h' b e vb ve out xs qs).
Proof.
  intros Hcall.
  destruct (dispatch_again detail.lbf h b e vb ve out comp xs qs
              lbf_well_behaved Hcall) as (it1 & h1 & ? & ? & ? & _).
  destruct (dispatch_again detail.ubf h b e vb ve out comp xs qs
              ubf_well_behaved Hcall) as (it2 & h2 & ? & ? & ? & _).
  destruct (dispatch_again detail.bsf h b e vb ve out comp xs qs
              bsf_well_behaved Hcall) as (it3 & h3 & ? & ? & ? & _).
  split; [by exists it1, h1|]. split; [by exists it2, h2|]. by exists it3, h3.
Qed.

(** X5.  The output may be the query buffer itself.  When the queries do
    not overlap the sequence, a batch call with [values_begin] for output
    returns [values_end], leaves in each query cell the result for the query
    it held, and changes nothing else. *)
Theorem batch_in_place h b e vb ve comp xs qs :
  read_range h b e = Some xs ->
  read_range h vb ve = Some qs ->
  disjoint vb ve b e ->
  (exists h', lower_bound_vector b e vb ve vb comp h = Some (ve, h') /\
     (forall (i : nat) q, qs !! i = Some q ->
        exists r, detail.lbf h b e q comp = Some r /\
                  load h' (vb + Z.of_nat i) = Some r) /\
     (forall a, ~ (vb <= a < ve) -> h' !! a = h !! a) /\
     read_range h' b e = Some xs) /\
  (exists h', upper_bound_vector b e vb ve vb comp h = Some (ve, h') /\
     (forall (i : nat) q, qs !! i = Some q ->
        exists r, detail.ubf h b e q comp = Some r /\
                  load h' (vb + Z.of_nat i) = Some r) /\
     (forall a, ~ (vb <= a < ve) -> h' !! a = h !! a) /\
     read_range h' b e = Some xs) /\
  (exists h', binary_search_vector b e vb ve vb comp h = Some (ve, h') /\
     (forall (i : nat) q, qs !! i = Some q ->
        exists r, detail.bsf h b e q comp = Some r /\
                  load h' (vb + Z.of_nat i) = Some r) /\
     (forall a, ~ (vb <= a < ve) -> h' !! a = h !! a) /\
     read_range h' b e = Some xs).
Proof.
  intros HS HQ Hd. split; [|split]; eapply dispatch_in_place; eauto.
  - apply lbf_well_behaved.
  - apply ubf_well_behaved.
  - apply bsf_well_behaved.
Qed.

(** X6.  The scalar entry points read the sequence and nothing else: on
    two stores that hold the same cells in [[b, e)], whatever else they
    hold and wherever the temporary buffers end up, they return the same
    result, and each store is left as it was. *)
Theorem scalar_reads_sequence_only h h' b e v comp xs :
  read_range h b e = Some xs ->
  same_on b e h h' ->
  exists (lo up : Z) (m : bool),
    lower_bound b e v comp h = Some (lo, h) /\
    lower_bound b e v comp h' = Some (lo, h') /\
    upper_bound b e v comp h = Some (up, h) /\
    upper_bound b e v comp h' = Some (up, h') /\
    binary_search b e v comp h = Some (m, h) /\
    binary_search b e v comp h' = Some (m, h').
Proof.
  intros HS Hs.
  assert (HS' : read_range h' b e = Some xs) by by rewrite <- (read_range_same h h').
  eexists _, _, _.
  rewrite (lower_bound_readable h _ _ _ _ _ HS), (lower_bound_readable h' _ _ _ _ _ HS'),
    (upper_bound_readable h _ _ _ _ _ HS), (upper_bound_readable h' _ _ _ _ _ HS'),
    (binary_search_readable h _ _ _ _ _ HS), (binary_search_readable h' _ _ _ _ _ HS').
  by repeat split.
Qed.

End BatchExtras.

(** * Further properties of the positions found *)

Section Positions.
Context {T : Type}.
Context (comp : StrictWeakOrdering T).
Implicit Types (l : list T) (v w : T).

Lemma first_index_mono (stop1 stop2 : T -> bool) l :
  (forall x, stop2 x = true -> stop1 x = true) ->
  (first_index stop1 l <= first_index stop2 l)%nat.
Proof.
  intros Himp. induction l as [|x l IH]; simpl; [lia|].
  destruct (stop2 x) eqn:H2.
  - rewrite (Himp x H2). lia.
  - destruct (stop1 x); lia.
Qed.

Lemma lower_index_before l v (i : nat) x :
  strict_weak_ordering comp -> is_sorted comp l = true ->
  l !! i = Some x ->
  comp x v = true <-> (i < lower_index comp l v)%nat.
Proof.
  intros Hswo Hs Hx. split.
  - intros Hxv.
    destruct (decide (i < lower_index comp l v)%nat) as [|Hge]; [done|exfalso].
    pose proof (lookup_lt_Some _ _ _ Hx) as Hi.
    destruct (lookup_lt_is_Some_2 l (lower_index comp l v)) as [y Hy]; [lia|].
    pose proof (first_index_stop _ _ _ Hy) as Hyv. simpl in Hyv.
    apply negb_true_iff in Hyv.
    destruct (decide (lower_index comp l v = i)) as [Heq|Hne].
    + rewrite Heq in Hy. congruence.
    + pose proof (is_sorted_pairwise comp l (lower_index comp l v) i y x Hswo Hs
                    ltac:(lia) Hy Hx) as Hxy.
      destruct (swo_between comp Hswo x v y Hxv Hxy Hyv).
  - intros Hlt.
    pose proof (first_index_before (fun y => negb (comp y v)) l i x Hlt Hx) as Hc.
    by apply negb_false_iff in Hc.
Qed.

Lemma upper_index_from l v (i : nat) x :
  strict_weak_ordering comp -> is_sorted comp l = true ->
  l !! i = Some x ->
  comp v x = true <-> (upper_index comp l v <= i)%nat.
Proof.
  intros Hswo Hs Hx. split.
  - intros Hvx.
    destruct (decide (upper_index comp l v <= i)%nat) as [|Hlt]; [done|exfalso].
    pose proof (first_index_before (fun y => comp v y) l i x
                  ltac:(unfold upper_index in *; lia) Hx) as Hc.
    simpl in Hc. congruence.
  - intros Hle. pose proof (lookup_lt_Some _ _ _ Hx) as Hi.
    destruct (lookup_lt_is_Some_2 l (upper_index comp l v)) as [y Hy]; [lia|].
    pose proof (first_index_stop _ _ _ Hy) as Hvy. simpl in Hvy.
    destruct (decide (upper_index comp l v = i)) as [Heq|Hne].
    + rewrite Heq in Hy. congruence.
    + pose proof (is_sorted_pairwise comp l (upper_index comp l v) i y x Hswo Hs
                    ltac:(lia) Hy Hx) as Hxy.
      destruct (comp v x) eqn:Hvx; [done|].
      destruct (swo_between comp Hswo v y x Hvy Hvx Hxy).
Qed.

Lemma is_sorted_cons x l :
  is_sorted comp (x :: l) = true <->
  (forall y, head l = Some y -> comp y x = false) /\ is_sorted comp l = true.
Proof.
  destruct l as [|y l]; simpl.
  - split; [done|done].
  - rewrite andb_true_iff, negb_true_iff. split.
    + intros [Hyx Hs]. split; [by intros ? [= <-]|done].
    + intros [Hh Hs]. split; [by apply Hh|done].
Qed.

(** Putting [v] in front of the first element that satisfies [stop] keeps a
    sequence sorted, when [stop] holds of nothing ordered before [v] and
    fails of nothing ordered after it. *)
Lemma insert_at_first_index (stop : T -> bool) l v :
  (forall x, stop x = true -> comp x v = false) ->
  (forall x, stop x = false -> comp v x = false) ->
  is_sorted comp l = true ->
  is_sorted comp (take (first_index stop l) l ++ v :: drop (first_index stop l) l)
  = true.
Proof.
  intros Hstop Hpass. induction l as [|x l IH]; intros Hs; [done|].
  cbn [first_index]. destruct (stop x) eqn:Hx.
  - cbn [take drop app]. apply is_sorted_cons. split; [|done].
    intros y [= <-]. by apply Hstop.
  - cbn [take drop app]. apply is_sorted_cons in Hs as [Hh Hs].
    apply is_sorted_cons. split; [|by apply IH].
    destruct l as [|y l]; simpl.
    + intros ? [= <-]. by apply Hpass.
    + destruct (stop y); simpl.
      * intros ? [= <-]. by apply Hpass.
      * intros ? [= <-]. by apply Hh.
Qed.

Lemma length_filter_between (p : T -> bool) l (L U : nat) :
  (L <= U <= length l)%nat ->
  (forall (i : nat) x, l !! i = Some x -> p x = true <-> (L <= i < U)%nat) ->
  length (List.filter p l) = (U - L)%nat.
Proof.
  revert L U. induction l as [|x l IH]; intros L U HLU Hp; simpl in *; [lia|].
  pose proof (Hp O x eq_refl) as H0.
  destruct (p x) eqn:Hx.
  - assert (L = 0 /\ 0 < U)%nat as [-> HU] by (destruct H0 as [H0 _]; lia).
    simpl. rewrite (IH O (U - 1)%nat); [lia|lia|].
    intros i y Hy. rewrite (Hp (S i) y Hy). lia.
  - destruct (decide (L = 0)%nat) as [->|HL].
    + assert (U = 0)%nat as -> by (destruct U; [done|]; destruct H0 as [_ H0];
        specialize (H0 ltac:(lia)); done).
      rewrite (IH O O); [lia|lia|].
      intros i y Hy. rewrite (Hp (S i) y Hy). lia.
    + rewrite (IH (L - 1)%nat (U - 1)%nat); [lia|lia|].
      intros i y Hy. rewrite (Hp (S i) y Hy). lia.
Qed.

End Positions.

Section PositionsFound.
Context {T : Type}.
Implicit Types (h : heap T) (comp : StrictWeakOrdering T) (xs qs : list T) (v w : T).

Lemma dereference_in_range h b e xs it x :
  read_range h b e = Some xs -> b <= it < e ->
  dereference h it = Some x <-> xs !! Z.to_nat (it - b) = Some x.
Proof.
  intros HS Hit. destruct (read_range_Some _ _ _ _ HS) as (_ & Hlen & Hcells).
  destruct (lookup_lt_is_Some_2 xs (Z.to_nat (it - b))) as [y Hy]; [lia|].
  pose proof (Hcells _ _ Hy) as Hc.
  replace (b + Z.of_nat (Z.to_nat (it - b))) with it in Hc by lia.
  unfold dereference. rewrite Hc, Hy. done.
Qed.

(** X7.  [equal_range] returns a subrange of the sequence: under a strict
    weak ordering the two iterators it returns satisfy
    [first <= lower <= upper <= last]. *)
Theorem equal_range_is_a_subrange h first last v comp xs :
  strict_weak_ordering comp ->
  read_range h first last = Some xs ->
  exists lo up : Z,
    equal_range first last v comp h = Some ((lo, up), h) /\
    first <= lo /\ lo <= up /\ up <= last.
Proof.
  intros Hswo HS. destruct (read_range_Some _ _ _ _ HS) as (_ & Hlen & _).
  exists (first + Z.of_nat (lower_index comp xs v)),
    (first + Z.of_nat (upper_index comp xs v)).
  pose proof (lower_le_upper comp xs v (swo_asymmetric comp Hswo)).
  pose proof (upper_index_le comp xs v).
  split; [|lia].
  unfold equal_range, bind at 1.
  rewrite (lower_bound_readable _ _ _ _ _ _ HS). unfold bind.
  by rewrite (upper_bound_readable _ _ _ _ _ _ HS).
Qed.

(** X8.  The offsets a batch [lower_bound] and a batch [upper_bound] write
    for a query are positions of the sequence, the lower one first:
    [0 <= lower <= upper <= end - begin]. *)
Theorem batch_offsets_in_range h b e vb ve out comp xs qs :
  strict_weak_ordering comp ->
  batch_call h b e vb ve out xs qs ->
  exists h1 h2,
    snd <$> lower_bound_vector b e vb ve out comp h = Some h1 /\
    snd <$> upper_bound_vector b e vb ve out comp h = Some h2 /\
    forall i : nat, (i < length qs)%nat ->
      exists lb ub : Z,
        load h1 (out + Z.of_nat i) = Some lb /\
        load h2 (out + Z.of_nat i) = Some ub /\
        0 <= lb /\ lb <= ub /\ ub <= e - b.
Proof.
  intros Hswo Hcall. pose proof (batch_sequence _ _ _ _ _ _ _ _ Hcall) as HS.
  destruct (read_range_Some _ _ _ _ HS) as (_ & Hlen & _).
  destruct (dispatch_contract detail.lbf h b e vb ve out comp xs qs
              lbf_well_behaved Hcall) as (h1 & Hrun1 & Hout1 & _).
  destruct (dispatch_contract detail.ubf h b e vb ve out comp xs qs
              ubf_well_behaved Hcall) as (h2 & Hrun2 & Hout2 & _).
  exists h1, h2. unfold lower_bound_vector, upper_bound_vector.
  rewrite Hrun1, Hrun2. repeat (split; [done|]).
  intros i Hi. destruct (lookup_lt_is_Some_2 qs i Hi) as [q Hq].
  destruct (Hout1 i q Hq) as (lb & Hlb & Hload1).
  destruct (Hout2 i q Hq) as (ub & Hub & Hload2).
  rewrite (lbf_readable _ _ _ _ _ _ HS) in Hlb. injection Hlb as <-.
  rewrite (ubf_readable _ _ _ _ _ _ HS) in Hub. injection Hub as <-.
  eexists _, _. repeat (split; [done|]).
  pose proof (lower_le_upper comp xs q (swo_asymmetric comp Hswo)).
  pose proof (upper_index_le comp xs q). lia.
Qed.

(** X9.  The bounds split a sorted sequence: an element is ordered before
    [v] exactly when it lies before the iterator [lower_bound] returns, and
    ordered after [v] exactly when it lies at or after the iterator
    [upper_bound] returns. *)
Theorem bounds_split_sequence h b e v comp xs :
  strict_weak_ordering comp ->
  read_range h b e = Some xs ->
  is_sorted comp xs = true ->
  exists lo up : Z,
    lower_bound b e v comp h = Some (lo, h) /\
    upper_bound b e v comp h = Some (up, h) /\
    forall it x, b <= it < e -> dereference h it = Some x ->
      (comp x v = true <-> it < lo) /\ (comp v x = true <-> up <= it).
Proof.
  intros Hswo HS Hsorted.
  exists (b + Z.of_nat (lower_index comp xs v)),
    (b + Z.of_nat (upper_index comp xs v)).
  split; [by apply lower_bound_readable|].
  split; [by apply upper_bound_readable|].
  intros it x Hit Hx. apply (dereference_in_range h b e xs it x HS Hit) in Hx.
  rewrite (lower_index_before comp xs v _ x Hswo Hsorted Hx).
  rewrite (upper_index_from comp xs v _ x Hswo Hsorted Hx). lia.
Qed.

(** X10.  The bounds are insertion positions: putting [v] into a sorted
    sequence at the offset [lbf] gives, or at the offset [ubf] gives, leaves
    it sorted. *)
Theorem insertion_keeps_sorted h b e v comp xs :
  strict_weak_ordering comp ->
  read_range h b e = Some xs ->
  is_sorted comp xs = true ->
  exists lb ub : Z,
    detail.lbf h b e v comp = Some lb /\
    detail.ubf h b e v comp = Some ub /\
    is_sorted comp (take (Z.to_nat lb) xs ++ v :: drop (Z.to_nat lb) xs) = true /\
    is_sorted comp (take (Z.to_nat ub) xs ++ v :: drop (Z.to_nat ub) xs) = true.
Proof.
  intros Hswo HS Hsorted.
  exists (Z.of_nat (lower_index comp xs v)), (Z.of_nat (upper_index comp xs v)).
  split; [by apply lbf_readable|]. split; [by apply ubf_readable|].
  rewrite !Nat2Z.id. pose proof (swo_asymmetric comp Hswo) as Hasym. split.
  - apply insert_at_first_index; [| |done].
    + by intros x Hx%negb_true_iff.
    + intros x Hx%negb_false_iff. by apply Hasym.
  - apply insert_at_first_index; [| |done].
    + intros x Hx. by apply Hasym.
    + done.
Qed.

(** X11.  The bounds grow with the query: when [w] is not ordered before
    [v], the offsets found for [v] are at most those found for [w]. *)
Theorem bounds_grow_with_query h b e v w comp xs :
  strict_weak_ordering comp ->
  read_range h b e = Some xs ->
  comp w v = false ->
  exists lv lw uv uw : Z,
    detail.lbf h b e v comp = Some lv /\ detail.lbf h b e w comp = Some lw /\
    detail.ubf h b e v comp = Some uv /\ detail.ubf h b e w comp = Some uw /\
    lv <= lw /\ uv <= uw.
Proof.
  intros Hswo HS Hwv.
  exists (Z.of_nat (lower_index comp xs v)), (Z.of_nat (lower_index comp xs w)),
    (Z.of_nat (upper_index comp xs v)), (Z.of_nat (upper_index comp xs w)).
  rewrite !(lbf_readable _ _ _ _ _ _ HS), !(ubf_readable _ _ _ _ _ _ HS).
  repeat (split; [done|]). split; apply inj_le.
  - apply first_index_mono. intros x Hxw%negb_true_iff. apply negb_true_iff.
    destruct (comp x v) eqn:Hxv; [|done].
    destruct (swo_between comp Hswo x v w Hxv Hxw Hwv).
  - apply first_index_mono. intros x Hwx.
    destruct (comp v x) eqn:Hvx; [done|].
    destruct (swo_between comp Hswo w x v Hwx Hwv Hvx).
Qed.

(** X12.  On a sorted sequence [binary_search] finds what is there: it
    returns true exactly when some element of the sequence is equivalent to
    the query. *)
Theorem binary_search_finds_present h b e v comp xs :
  strict_weak_ordering comp ->
  read_range h b e = Some xs ->
  is_sorted comp xs = true ->
  exists m : bool,
    binary_search b e v comp h = Some (m, h) /\
    (m = true <-> exists x, x ∈ xs /\ equivalent comp x v = true).
Proof.
  intros Hswo HS Hsorted. eexists. split; [by apply binary_search_readable|].
  rewrite (member_iff_bounds comp xs v (swo_asymmetric comp Hswo)).
  pose proof (lower_le_upper comp xs v (swo_asymmetric comp Hswo)) as Hle.
  pose proof (upper_index_le comp xs v) as Hub. split.
  - intros Hne.
    destruct (lookup_lt_is_Some_2 xs (lower_index comp xs v)) as [x Hx]; [lia|].
    exists x. split; [by eapply list_elem_of_lookup_2|].
    apply (equivalent_iff_between comp xs v _ x Hswo Hsorted Hx). lia.
  - intros (x & [i Hx]%list_elem_of_lookup_1 & Heq).
    apply (equivalent_iff_between comp xs v i x Hswo Hsorted Hx) in Heq. lia.
Qed.

(** X13.  On a sorted sequence the upper bound minus the lower bound counts
    the elements equivalent to the query. *)
Theorem bounds_count_equivalent h b e v comp xs :
  strict_weak_ordering comp ->
  read_range h b e = Some xs ->
  is_sorted comp xs = true ->
  exists lb ub : Z,
    detail.lbf h b e v comp = Some lb /\
    detail.ubf h b e v comp = Some ub /\
    ub - lb = Z.of_nat (length (List.filter (fun x => equivalent comp x v) xs)).
Proof.
  intros Hswo HS Hsorted.
  exists (Z.of_nat (lower_index comp xs v)), (Z.of_nat (upper_index comp xs v)).
  split; [by apply lbf_readable|]. split; [by apply ubf_readable|].
  pose proof (lower_le_upper comp xs v (swo_asymmetric comp Hswo)) as Hle.
  pose proof (upper_index_le comp xs v) as Hub.
  rewrite (length_filter_between (fun x => equivalent comp x v) xs
             (lower_index comp xs v) (upper_index comp xs v)); [lia|lia|].
  intros i x Hx. by apply equivalent_iff_between.
Qed.

End PositionsFound.

(** ** The further properties at the scenarios *)

Lemma batch_is_scalar_calls_witness :
  exists h1 h2 h3,
    snd <$> lower_bound_vector 100 106 200 203 300 Z.ltb S6_batch = Some h1 /\
    snd <$> upper_bound_vector 100 106 200 203 300 Z.ltb S6_batch = Some h2 /\
    snd <$> binary_search_vector 100 106 200 203 300 Z.ltb S6_batch = Some h3 /\
    forall (i : nat) q, [0; 3; 8] !! i = Some q ->
      exists (lb ub : Z) (m : bool),
        load h1 (300 + Z.of_nat i) = Some lb /\
        lower_bound 100 106 q Z.ltb S6_batch = Some (100 + lb, S6_batch) /\
        load h2 (300 + Z.of_nat i) = Some ub /\
        upper_bound 100 106 q Z.ltb S6_batch = Some (100 + ub, S6_batch) /\
        load h3 (300 + Z.of_nat i) = Some m /\
        binary_search 100 106 q Z.ltb S6_batch = Some (m, S6_batch).
Proof.
  apply (batch_is_scalar_calls S6_batch 100 106 200 203 300 Z.ltb
           [1; 3; 3; 3; 5; 7] [0; 3; 8]).
  concrete_batch_call.
Defined.

Lemma batch_in_two_parts_witness :
  (exists mid h1 h',
     batch_call S6_batch 100 106 200 201 300 [1; 3; 3; 3; 5; 7]
       (take (Z.to_nat (201 - 200)) [0; 3; 8]) /\
     lower_bound_vector 100 106 200 201 300 Z.ltb S6_batch = Some (mid, h1) /\
     batch_call h1 100 106 201 203 mid [1; 3; 3; 3; 5; 7]
       (drop (Z.to_nat (201 - 200)) [0; 3; 8]) /\
     lower_bound_vector 100 106 201 203 mid Z.ltb h1
       = Some (300 + distance 200 203, h') /\
     lower_bound_vector 100 106 200 203 300 Z.ltb S6_batch
       = Some (300 + distance 200 203, h')) /\
  (exists mid h1 h',
     batch_call S6_batch 100 106 200 201 300 [1; 3; 3; 3; 5; 7]
       (take (Z.to_nat (201 - 200)) [0; 3; 8]) /\
     upper_bound_vector 100 106 200 201 300 Z.ltb S6_batch = Some (mid, h1) /\
     batch_call h1 100 106 201 203 mid [1; 3; 3; 3; 5; 7]
       (drop (Z.to_nat (201 - 200)) [0; 3; 8]) /\
     upper_bound_vector 100 106 201 203 mid Z.ltb h1
       = Some (300 + distance 200 203, h') /\
     upper_bound_vector 100 106 200 203 300 Z.ltb S6_batch
       = Some (300 + distance 200 203, h')) /\
  (exists mid h1 h',
     batch_call S6_batch 100 106 200 201 300 [1; 3; 3; 3; 5; 7]
       (take (Z.to_nat (201 - 200)) [0; 3; 8]) /\
     binary_search_vector 100 106 200 201 300 Z.ltb S6_batch = Some (mid, h1) /\
     batch_call h1 100 106 201 203 mid [1; 3; 3; 3; 5; 7]
       (drop (Z.to_nat (201 - 200)) [0; 3; 8]) /\
     binary_search_vector 100 106 201 203 mid Z.ltb h1
       = Some (300 + distance 200 203, h') /\
     binary_search_vector 100 106 200 203 300 Z.ltb S6_batch
       = Some (300 + distance 200 203, h')).
Proof.
  apply (batch_in_two_parts S6_batch 100 106 200 201 203 300 Z.ltb
           [1; 3; 3; 3; 5; 7] [0; 3; 8]).
  - concrete_batch_call.
  - lia.
Defined.

Lemma batch_call_repeatable_witness :
  (exists it h', lower_bound_vector 100 106 200 203 300 Z.ltb S6_batch = Some (it, h') /\
                 lower_bound_vector 100 106 200 203 300 Z.ltb h' = Some (it, h')) /\
  (exists it h', upper_bound_vector 100 106 200 203 300 Z.ltb S6_batch = Some (it, h') /\
                 upper_bound_vector 100 106 200 203 300 Z.ltb h' = Some (it, h')) /\
  (exists it h', binary_search_vector 100 106 200 203 300 Z.ltb S6_batch = Some (it, h') /\
                 binary_search_vector 100 106 200 203 300 Z.ltb h' = Some (it, h')).
Proof.
  apply (batch_call_repeatable S6_batch 100 106 200 203 300 Z.ltb
           [1; 3; 3; 3; 5; 7] [0; 3; 8]).
  concrete_batch_call.
Defined.

Lemma batch_keeps_cells_witness :
  (exists it h', lower_bound_vector 100 106 200 203 300 Z.ltb S6_batch = Some (it, h') /\
     dom h' = dom S6_batch /\
     batch_call h' 100 106 200 203 300 [1; 3; 3; 3; 5; 7] [0; 3; 8]) /\
  (exists it h', upper_bound_vector 100 106 200 203 300 Z.ltb S6_batch = Some (it, h') /\
     dom h' = dom S6_batch /\
     batch_call h' 100 106 200 203 300 [1; 3; 3; 3; 5; 7] [0; 3; 8]) /\
  (exists it h', binary_search_vector 100 106 200 203 300 Z.ltb S6_batch = Some (it, h') /\
     dom h' = dom S6_batch /\
     batch_call h' 100 106 200 203 300 [1; 3; 3; 3; 5; 7] [0; 3; 8]).
Proof.
  apply (batch_keeps_cells S6_batch 100 106 200 203 300 Z.ltb
           [1; 3; 3; 3; 5; 7] [0; 3; 8]).
  concrete_batch_call.
Defined.

Lemma batch_in_place_witness :
  (exists h', lower_bound_vector 100 106 200 203 200 Z.ltb S6_batch = Some (203, h') /\
     (forall (i : nat) q, [0; 3; 8] !! i = Some q ->
        exists r, detail.lbf S6_batch 100 106 q Z.ltb = Some r /\
                  load h' (200 + Z.of_nat i) = Some r) /\
     (forall a, ~ (200 <= a < 203) -> h' !! a = S6_batch !! a) /\
     read_range h' 100 106 = Some [1; 3; 3; 3; 5; 7]) /\
  (exists h', upper_bound_vector 100 106 200 203 200 Z.ltb S6_batch = Some (203, h') /\
     (forall (i : nat) q, [0; 3; 8] !! i = Some q ->
        exists r, detail.ubf S6_batch 100 106 q Z.ltb = Some r /\
                  load h' (200 + Z.of_nat i) = Some r) /\
     (forall a, ~ (200 <= a < 203) -> h' !! a = S6_batch !! a) /\
     read_range h' 100 106 = Some [1; 3; 3; 3; 5; 7]) /\
  (exists h', binary_search_vector 100 106 200 203 200 Z.ltb S6_batch = Some (203, h') /\
     (forall (i : nat) q, [0; 3; 8] !! i = Some q ->
        exists r, detail.bsf S6_batch 100 106 q Z.ltb = Some r /\
                  load h' (200 + Z.of_nat i) = Some r) /\
     (forall a, ~ (200 <= a < 203) -> h' !! a = S6_batch !! a) /\
     read_range h' 100 106 = Some [1; 3; 3; 3; 5; 7]).
Proof.
  apply (batch_in_place S6_batch 100 106 200 203 Z.ltb
           [1; 3; 3; 3; 5; 7] [0; 3; 8]).
  - evaluate.
  - evaluate.
  - intros ?; lia.
Defined.

Lemma scalar_reads_sequence_only_witness :
  exists (lo up : Z) (m : bool),
    lower_bound 100 106 3 Z.ltb S6 = Some (lo, S6) /\
    lower_bound 100 106 3 Z.ltb S6_batch = Some (lo, S6_batch) /\
    upper_bound 100 106 3 Z.ltb S6 = Some (up, S6) /\
    upper_bound 100 106 3 Z.ltb S6_batch = Some (up, S6_batch) /\
    binary_search 100 106 3 Z.ltb S6 = Some (m, S6) /\
    binary_search 100 106 3 Z.ltb S6_batch = Some (m, S6_batch).
Proof.
  apply (scalar_reads_sequence_only S6 S6_batch 100 106 3 Z.ltb [1; 3; 3; 3; 5; 7]).
  - evaluate.
  - intros a Ha.
    assert (a = 100 \/ a = 101 \/ a = 102 \/ a = 103 \/ a = 104 \/ a = 105)
      as [-> | [-> | [-> | [-> | [-> | ->] ] ] ] ] by lia; evaluate.
Defined.

Lemma equal_range_is_a_subrange_witness :
  exists lo up : Z,
    equal_range 100 106 3 Z.ltb S6 = Some ((lo, up), S6) /\
    100 <= lo /\ lo <= up /\ up <= 106.
Proof.
  apply (equal_range_is_a_subrange S6 100 106 3 Z.ltb [1; 3; 3; 3; 5; 7]).
  - concrete_ordering.
  - evaluate.
Defined.

Lemma batch_offsets_in_range_witness :
  exists h1 h2,
    snd <$> lower_bound_vector 100 106 200 203 300 Z.ltb S6_batch = Some h1 /\
    snd <$> upper_bound_vector 100 106 200 203 300 Z.ltb S6_batch = Some h2 /\
    forall i : nat, (i < length [0; 3; 8])%nat ->
      exists lb ub : Z,
        load h1 (300 + Z.of_nat i) = Some lb /\
        load h2 (300 + Z.of_nat i) = Some ub /\
        0 <= lb /\ lb <= ub /\ ub <= 106 - 100.
Proof.
  apply (batch_offsets_in_range S6_batch 100 106 200 203 300 Z.ltb
           [1; 3; 3; 3; 5; 7] [0; 3; 8]).
  - concrete_ordering.
  - concrete_batch_call.
Defined.

Lemma bounds_split_sequence_witness :
  exists lo up : Z,
    lower_bound 100 106 3 Z.ltb S6 = Some (lo, S6) /\
    upper_bound 100 106 3 Z.ltb S6 = Some (up, S6) /\
    forall it x, 100 <= it < 106 -> dereference S6 it = Some x ->
      (Z.ltb x 3 = true <-> it < lo) /\ (Z.ltb 3 x = true <-> up <= it).
Proof.
  apply (bounds_split_sequence S6 100 106 3 Z.ltb [1; 3; 3; 3; 5; 7]).
  - concrete_ordering.
  - evaluate.
  - evaluate.
Defined.

Lemma insertion_keeps_sorted_witness :
  exists lb ub : Z,
    detail.lbf S6 100 106 4 Z.ltb = Some lb /\
    detail.ubf S6 100 106 4 Z.ltb = Some ub /\
    is_sorted Z.ltb (take (Z.to_nat lb) [1; 3; 3; 3; 5; 7]
                     ++ 4 :: drop (Z.to_nat lb) [1; 3; 3; 3; 5; 7]) = true /\
    is_sorted Z.ltb (take (Z.to_nat ub) [1; 3; 3; 3; 5; 7]
                     ++ 4 :: drop (Z.to_nat ub) [1; 3; 3; 3; 5; 7]) = true.
Proof.
  apply (insertion_keeps_sorted S6 100 106 4 Z.ltb [1; 3; 3; 3; 5; 7]).
  - concrete_ordering.
  - evaluate.
  - evaluate.
Defined.

Lemma bounds_grow_with_query_witness :
  exists lv lw uv uw : Z,
    detail.lbf S6 100 106 3 Z.ltb = Some lv /\
    detail.lbf S6 100 106 5 Z.ltb = Some lw /\
    detail.ubf S6 100 106 3 Z.ltb = Some uv /\
    detail.ubf S6 100 106 5 Z.ltb = Some uw /\
    lv <= lw /\ uv <= uw.
Proof.
  apply (bounds_grow_with_query S6 100 106 3 5 Z.ltb [1; 3; 3; 3; 5; 7]).
  - concrete_ordering.
  - evaluate.
  - evaluate.
Defined.

Lemma binary_search_finds_present_witness :
  exists m : bool,
    binary_search 100 106 5 Z.ltb S6 = Some (m, S6) /\
    (m = true <-> exists x, x ∈ [1; 3; 3; 3; 5; 7] /\ equivalent Z.ltb x 5 = true).
Proof.
  apply (binary_search_finds_present S6 100 106 5 Z.ltb [1; 3; 3; 3; 5; 7]).
  - concrete_ordering.
  - evaluate.
  - evaluate.
Defined.

Lemma bounds_count_equivalent_witness :
  exists lb ub : Z,
    detail.lbf S6 100 106 3 Z.ltb = Some lb /\
    detail.ubf S6 100 106 3 Z.ltb = Some ub /\
    ub - lb = Z.of_nat (length (List.filter (fun x => equivalent Z.ltb x 3)
                                            [1; 3; 3; 3; 5; 7])).
Proof.
  apply (bounds_count_equivalent S6 100 106 3 Z.ltb [1; 3; 3; 3; 5; 7]).
  - concrete_ordering.
  - evaluate.
  - evaluate.
Defined.
